(** * A two-tier build cache: the Cloudflare R2 provider and the
      remote-fallback orchestrator

    Shallow embedding of

    - [TimeoutStream] and [CloudflareR2CacheProvider]
      (packages/cache/src/providers/CloudflareR2CacheProvider.ts),
    - [RemoteFallbackCacheProvider]
      (packages/cache/src/providers/RemoteFallbackCacheProvider.ts),

    together with the two process-wide [LRUCache] hit tables the
    orchestrator keeps.

    Conventions.  A JavaScript promise is an [outcome]: it resolves, it
    rejects with an error, or it never settles.  Every S3 command that is
    sent and every [logger.silly] line is recorded in an effect log, so that
    "no request is issued" is a statement about that log.  Sizes are byte
    counts and times are milliseconds, both in [N]. *)

From Stdlib Require Import String List Bool Arith NArith Lia.
Import ListNotations.

Local Open Scope string_scope.
Local Open Scope list_scope.
Local Open Scope nat_scope.

(** ** Promises and thrown errors *)

(** What the code reads of a thrown value: [error.name], [error.message]
    and [error.$metadata?.httpStatusCode]. *)
Record JsError : Type := mkError {
  name : string;
  message : string;
  httpStatusCode : option N
}.

(** [new Error(message)] *)
Definition new_Error (msg : string) : JsError :=
  {| name := "Error"; message := msg; httpStatusCode := None |}.

Inductive outcome (A : Type) : Type :=
| Resolved (a : A)
| Rejected (e : JsError)
| Pending.

Arguments Resolved {A} a.
Arguments Rejected {A} e.
Arguments Pending {A}.

(** ** The effect log *)

(** The stream handed to [PutObjectCommand] as [Body]: [tar.pack(cwd, {entries})]. *)
Record TarStream : Type := tar_pack {
  pack_cwd : string;
  pack_entries : option (list string)
}.

Inductive S3Command : Type :=
| HeadObjectCommand (Bucket Key : string)
| GetObjectCommand (Bucket Key : string)
| PutObjectCommand (Bucket Key : string) (Body : TarStream) (ContentType : string).

Inductive LogLine : Type :=
| ObjectTooLarge (hash : string) (size : N)
| FetchedFromR2 (hash : string)
| CacheMissInR2 (hash : string)
| FetchFailed (msg : string)
| OutputTooLarge (hash : string) (size : N)
| UploadedToR2 (hash : string)
| PutFailed (msg : string).

Inductive effect : Type :=
| Send (c : S3Command)
| Silly (l : LogLine).

Definition is_request (e : effect) : bool :=
  match e with Send _ => true | Silly _ => false end.

(** The object-store requests of a log, in order. *)
Definition requests (log : list effect) : list effect := filter is_request log.

Definition is_download (e : effect) : bool :=
  match e with Send (GetObjectCommand _ _) => true | _ => false end.

Definition is_upload (e : effect) : bool :=
  match e with Send (PutObjectCommand _ _ _ _) => true | _ => false end.

(** ** An async computation: its log and how it settles *)

Module Async.

Definition io (A : Type) : Type := (list effect * outcome A)%type.

Definition ret {A} (a : A) : io A := ([], Resolved a).

Definition throw {A} (e : JsError) : io A := ([], Rejected e).

Definition bind {A B} (m : io A) (f : A -> io B) : io B :=
  match m with
  | (l1, Resolved a) => let (l2, r) := f a in (l1 ++ l2, r)
  | (l1, Rejected e) => (l1, Rejected e)
  | (l1, Pending) => (l1, Pending)
  end.

(** [try { m } catch (error) { h error }]: a pending [m] is never caught. *)
Definition try_catch {A} (m : io A) (h : JsError -> io A) : io A :=
  match m with
  | (l1, Rejected e) => let (l2, r) := h e in (l1 ++ l2, r)
  | _ => m
  end.

(** [await p] for a promise [p] that has no effect of its own on the log. *)
Definition await {A} (p : outcome A) : io A := ([], p).

Definition emit (e : effect) : io unit := ([e], Resolved tt).

Definition log_of {A} (m : io A) : list effect := fst m.
Definition result_of {A} (m : io A) : outcome A := snd m.

End Async.

Import Async.

Declare Scope io_scope.
Delimit Scope io_scope with io.
Notation "x <- m ;; k" := (bind m (fun x => k))
  (at level 61, m at next level, right associativity) : io_scope.
Notation "m ;;; k" := (bind m (fun _ => k))
  (at level 61, right associativity) : io_scope.

(** ** The hit tables *)

Module LRU.

(** Modelled from the spec: the [LRUCache] class of the npm package
    lru-cache, which the orchestrator imports and whose code is not part of
    this repository.  A HitRecord is a mapping from key to boolean that is
    capacity-bounded (a fixed maximum entry count, least-recently-used
    eviction when exceeded) and time-bounded (entries expire after a fixed
    TTL).  [items] is kept in recency order, most recently touched first;
    [start] is the time the entry was last written. *)
Record entry : Type := mkEntry {
  key : string;
  value : bool;
  start : N
}.

(** Modelled from the spec: a table with its fixed maximum entry count
    [max], its fixed time to live [ttl] in milliseconds, and its entries. *)
Record LRUCache : Type := mkCache {
  max : nat;
  ttl : N;
  items : list entry
}.

(** [new LRUCache({ max, ttl })] *)
Definition create (max : nat) (ttl : N) : LRUCache :=
  {| max := max; ttl := ttl; items := [] |}.

Definition with_items (c : LRUCache) (l : list entry) : LRUCache :=
  {| max := max c; ttl := ttl c; items := l |}.

Definition size (c : LRUCache) : nat := length (items c).

Definition keys (c : LRUCache) : list string := map key (items c).

Fixpoint find (k : string) (l : list entry) : option entry :=
  match l with
  | [] => None
  | e :: l' => if String.eqb k (key e) then Some e else find k l'
  end.

Fixpoint remove (k : string) (l : list entry) : list entry :=
  match l with
  | [] => []
  | e :: l' => if String.eqb k (key e) then remove k l' else e :: remove k l'
  end.

(** Modelled from the spec: an entry is stale once more than [ttl]
    milliseconds have passed since it was written ([now - start] is 0 when
    the clock reads less than [start]). *)
Definition isStale (c : LRUCache) (e : entry) (now : N) : bool :=
  (ttl c <? now - start e)%N.

(** Modelled from the spec: [cache.set(k, v)] at time [now].  The entry
    becomes the most recently touched one; a key that is new to a full table
    takes the place of the least recently touched entry. *)
Definition set (k : string) (v : bool) (now : N) (c : LRUCache) : LRUCache :=
  let e := {| key := k; value := v; start := now |} in
  match find k (items c) with
  | Some _ => with_items c (e :: remove k (items c))
  | None =>
      if (max c <=? length (items c))%nat
      then with_items c (e :: removelast (items c))
      else with_items c (e :: items c)
  end.

(** Modelled from the spec: [cache.get(k)] at time [now]; [None] is
    JavaScript's [undefined].  A stale entry is dropped and reads as absent;
    a live one becomes the most recently touched. *)
Definition get (k : string) (now : N) (c : LRUCache) : option bool * LRUCache :=
  match find k (items c) with
  | None => (None, c)
  | Some e =>
      if isStale c e now
      then (None, with_items c (remove k (items c)))
      else (Some (value e), with_items c (e :: remove k (items c)))
  end.

(** Modelled from the spec: [cache.clear()] empties the table. *)
Definition clear (c : LRUCache) : LRUCache := with_items c [].

End LRU.

(** ** Streams and the timeout guard *)

Module Stream.

Definition chunk : Type := string.

(** How a readable source finishes: it ends, it fails, or it stalls for
    ever.  Times are milliseconds counted from the moment the pipeline is
    set up. *)
Inductive finish : Type :=
| Ends (at_ms : N)
| Fails (at_ms : N) (e : JsError)
| Stalls.

(** [response.Body]: the chunks with their arrival times, in order of
    arrival, and how the source finishes after the last one.  The code does
    not order a timer's callback and an event of the source that fall on the
    same millisecond: [timer_first] says which of the two the event loop runs
    first for this source. *)
Record Readable : Type := mkReadable {
  arrivals : list (N * chunk);
  finishes : finish;
  timer_first : bool
}.

(** [class TimeoutStream extends Transform].  [timeout] is the pending
    timer ([None] once [clearTimeout] has run), given by the time at which
    it fires; [pushed] is what [this.push] has passed downstream;
    [destroyed] is the error [this.destroy] was called with. *)
Record TimeoutStream : Type := mkTimeoutStream {
  timeout : option N;
  timeoutError : JsError;
  pushed : list chunk;
  destroyed : option JsError
}.

(** [constructor(timeoutMs, message)], run at time [now]:
    [setTimeout(() => this.destroy(new Error(message)), timeoutMs)]. *)
Definition new_TimeoutStream (now timeoutMs : N) (msg : string) : TimeoutStream :=
  {| timeout := Some (now + timeoutMs)%N;
     timeoutError := new_Error msg;
     pushed := [];
     destroyed := None |}.

(** [_transform(chunk, _encoding, callback)]:
    [clearTimeout(this.timeout); this.push(chunk); callback()]. *)
Definition _transform (ts : TimeoutStream) (c : chunk) : TimeoutStream :=
  {| timeout := None;
     timeoutError := timeoutError ts;
     pushed := pushed ts ++ [c];
     destroyed := destroyed ts |}.

(** The timer's callback: [this.destroy(new Error(message))]. *)
Definition onTimeout (ts : TimeoutStream) : TimeoutStream :=
  {| timeout := None;
     timeoutError := timeoutError ts;
     pushed := pushed ts;
     destroyed := Some (timeoutError ts) |}.

(** The timer's callback runs before an event at time [t] is handled: the
    timer is still pending and fires earlier than [t], or at [t] itself when
    timers go first. *)
Definition due (timer_first : bool) (ts : TimeoutStream) (t : N) : bool :=
  match timeout ts with
  | Some d => (d <? t)%N || (timer_first && (d =? t)%N)
  | None => false
  end.

(** The event loop feeding the source's chunks through the transform. *)
Fixpoint feed (timer_first : bool) (ts : TimeoutStream) (l : list (N * chunk))
  : TimeoutStream :=
  match l with
  | [] => ts
  | (t, c) :: l' =>
      match destroyed ts with
      | Some _ => ts
      | None =>
          if due timer_first ts t then onTimeout ts
          else feed timer_first (_transform ts c) l'
      end
  end.

(** The event loop at the end of the source: a timer that is due by then, or
    still pending when the source stalls for ever, runs its callback. *)
Definition at_finish (timer_first : bool) (ts : TimeoutStream) (f : finish)
  : TimeoutStream :=
  match f with
  | Ends t | Fails t _ => if due timer_first ts t then onTimeout ts else ts
  | Stalls =>
      match timeout ts with
      | Some _ => onTimeout ts
      | None => ts
      end
  end.

(** The first error of a sink that is written chunk by chunk: [sink p] is
    what the sink makes of having received the chunks [p], and a rejection
    there is the error it emits at that point. *)
Fixpoint first_failure (sink : list chunk -> outcome unit)
    (seen rest : list chunk) : option JsError :=
  match rest with
  | [] => None
  | c :: rest' =>
      match sink (seen ++ [c]) with
      | Rejected e => Some e
      | _ => first_failure sink (seen ++ [c]) rest'
      end
  end.

(** How a source and a sink settle when no timer is involved: with the
    first error of the sink, or else with the end of the source. *)
Definition settles_as (sink : list chunk -> outcome unit)
    (chunks : list chunk) (f : finish) : outcome unit :=
  match first_failure sink [] chunks with
  | Some e => Rejected e
  | None =>
      match f with
      | Ends _ => sink chunks
      | Fails _ e => Rejected e
      | Stalls => Pending
      end
  end.

(** [await pipelineAsync(body, timeoutStream, extractStream)], Node's
    [stream.pipeline]: it rejects with the error of the first stream that
    fails or is destroyed, resolves once the sink has finished, and stays
    pending while nothing fails and the source neither delivers nor ends.
    The timeout stream is destroyed by its timer's callback, and by nothing
    else before the pipeline settles; [sink] is what the extract stream makes
    of the chunks pushed to it. *)
Definition pipelineAsync (body : Readable) (ts : TimeoutStream)
    (sink : list chunk -> outcome unit) : outcome unit :=
  let fed := feed (timer_first body) ts (arrivals body) in
  match destroyed fed with
  | Some e => Rejected e
  | None =>
      match first_failure sink [] (pushed fed) with
      | Some e => Rejected e
      | None =>
          let last := at_finish (timer_first body) fed (finishes body) in
          match destroyed last with
          | Some e => Rejected e
          | None =>
              match finishes body with
              | Ends _ => sink (pushed last)
              | Fails _ e => Rejected e
              | Stalls => Pending
              end
          end
      end
  end.

(** Nothing happens on the source during its first [T] milliseconds: no
    chunk arrives, and it neither ends nor fails. *)
Definition silent_for (T : N) (body : Readable) : bool :=
  forallb (fun a => (T <? fst a)%N) (arrivals body)
  && match finishes body with
     | Ends t | Fails t _ => (T <? t)%N
     | Stalls => true
     end.

End Stream.

Import Stream.

(** ** Targets *)

(** The fields of [Target] the cache layer reads. *)
Record Target : Type := mkTarget {
  id : string;
  cwd : string;
  outputs : option (list string)
}.

(** ** The Cloudflare R2 provider *)

Module CloudflareR2CacheProvider.

(** [CloudflareR2CacheProviderOptions]; the logger is the effect log. *)
Record CloudflareR2CacheProviderOptions : Type := mkOptions {
  accountId : string;
  bucket : string;
  apiToken : string;
  endpoint : option string;
  region : option string;
  maxSize : option N;
  root : string
}.

Record HeadObjectOutput : Type := { ContentLength : option N }.
Record GetObjectOutput : Type := { Body : option Readable }.
Record Stats : Type := { size : N }.

(** Everything outside the provider: what the object store answers to each
    command, the file system under the target, and what [tar.extract]
    makes of a downloaded stream. *)
Record Backend : Type := mkBackend {
  head_object : string -> string -> outcome HeadObjectOutput;
  get_object : string -> string -> outcome GetObjectOutput;
  put_object : string -> string -> TarStream -> outcome unit;
  path_resolve : string -> string -> string;
  fs_existsSync : string -> bool;
  fs_stat : string -> outcome Stats;
  tar_extract : string -> list chunk -> outcome unit
}.

Local Open Scope io_scope.

(** [this.s3Client.send(command)] *)
Definition send {A} (c : S3Command) (answer : outcome A) : io A :=
  emit (Send c) ;;; await answer.

Definition silly (l : LogLine) : io unit := emit (Silly l).

(** [error.message || String(error)] *)
Definition message_of (error : JsError) : string :=
  if String.eqb (message error) "" then name error else message error.

(** [error.name === 'NoSuchKey' || error.$metadata?.httpStatusCode === 404] *)
Definition is_not_found (error : JsError) : bool :=
  String.eqb (name error) "NoSuchKey"
  || match httpStatusCode error with
     | Some code => (code =? 404)%N
     | None => false
     end.

(** [10 * 60 * 1000], ten minutes *)
Definition fetch_timeout_ms : N := 10 * 60 * 1000.

Definition timeout_message (hash : string) : string :=
  "R2 fetch request for " ++ hash ++ " timed out".

(** The part of [fetch] from [// Download the object] to [return true]. *)
Definition download (opts : CloudflareR2CacheProviderOptions) (env : Backend)
    (hash : string) (target : Target) : io bool :=
  response <- send (GetObjectCommand (bucket opts) hash)
                   (get_object env (bucket opts) hash) ;;
  match Body response with
  | None => throw (new_Error "No body in R2 response")
  | Some body =>
      let extractStream := tar_extract env (cwd target) in
      let timeoutStream :=
        new_TimeoutStream 0 fetch_timeout_ms (timeout_message hash) in
      await (pipelineAsync body timeoutStream extractStream) ;;;
      silly (FetchedFromR2 hash) ;;;
      ret true
  end.

(** The [catch (error)] block of [fetch]. *)
Definition fetch_catch (hash : string) (error : JsError) : io bool :=
  if is_not_found error
  then silly (CacheMissInR2 hash) ;;; ret false
  else silly (FetchFailed (message_of error)) ;;; ret false.

(** [async fetch(hash, target): Promise<boolean>].  A number is truthy when
    it is defined and not 0: [if (maxSize)] is the pattern [Some (Npos m)],
    and so is [headResponse.ContentLength && ...]. *)
Definition fetch (opts : CloudflareR2CacheProviderOptions) (env : Backend)
    (hash : string) (target : Target) : io bool :=
  if String.eqb hash "" then ret false
  else
    try_catch
      (match maxSize opts with
       | Some (Npos m) =>
           headResponse <- send (HeadObjectCommand (bucket opts) hash)
                                (head_object env (bucket opts) hash) ;;
           match ContentLength headResponse with
           | Some (Npos len) =>
               if (Npos m <? Npos len)%N
               then silly (ObjectTooLarge hash (Npos len)) ;;; ret false
               else download opts env hash target
           | _ => download opts env hash target
           end
       | _ => download opts env hash target
       end)
      (fetch_catch hash).

(** The [for (const glob of outputGlob)] loop of [put], from [totalSize]. *)
Fixpoint estimate (env : Backend) (cwd : string) (outputGlob : list string)
    (totalSize : N) : io N :=
  match outputGlob with
  | [] => ret totalSize
  | glob :: rest =>
      let globPath := path_resolve env cwd glob in
      if fs_existsSync env globPath
      then st <- await (fs_stat env globPath) ;;
           estimate env cwd rest (totalSize + size st)%N
      else estimate env cwd rest totalSize
  end.

(** [outputGlob.length === 1 && outputGlob[0] === "**/*" ? undefined : outputGlob] *)
Definition pack_entries_of (outputGlob : list string) : option (list string) :=
  match outputGlob with
  | [g] => if String.eqb g "**/*" then None else Some outputGlob
  | _ => Some outputGlob
  end.

(** [target.outputs || ["**/*"]] *)
Definition outputGlob_of (target : Target) : list string :=
  match outputs target with Some o => o | None => ["**/*"] end.

(** The part of [put] from [// Create tar stream from the files] on. *)
Definition upload (opts : CloudflareR2CacheProviderOptions) (env : Backend)
    (hash : string) (target : Target) (outputGlob : list string) : io unit :=
  let tarStream := tar_pack (cwd target) (pack_entries_of outputGlob) in
  send (PutObjectCommand (bucket opts) hash tarStream "application/x-tar")
       (put_object env (bucket opts) hash tarStream) ;;;
  silly (UploadedToR2 hash) ;;;
  ret tt.

(** The [catch (error)] block of [put]. *)
Definition put_catch (error : JsError) : io unit :=
  silly (PutFailed (message_of error)) ;;; ret tt.

(** [async put(hash, target): Promise<void>], with [if (maxSize)] as in
    [fetch]. *)
Definition put (opts : CloudflareR2CacheProviderOptions) (env : Backend)
    (hash : string) (target : Target) : io unit :=
  if String.eqb hash "" then ret tt
  else
    try_catch
      (let outputGlob := outputGlob_of target in
       match maxSize opts with
       | Some (Npos m) =>
           totalSize <- estimate env (cwd target) outputGlob 0%N ;;
           if (Npos m <? totalSize)%N
           then silly (OutputTooLarge hash totalSize) ;;; ret tt
           else upload opts env hash target outputGlob
       | _ => upload opts env hash target outputGlob
       end)
      put_catch.

End CloudflareR2CacheProvider.

(** ** The backfill storage wrapper *)

Module CloudflareR2CacheStorageConfig.

(** The [options] of [CloudflareR2CacheStorageConfig]. *)
Record options : Type := mkConfig {
  accountId : string;
  bucket : string;
  apiToken : string;
  endpoint : option string;
  region : option string;
  maxSize : option N
}.

End CloudflareR2CacheStorageConfig.

Module CloudflareR2CacheStorageWrapper.

(** [class CloudflareR2CacheStorageWrapper]: the provider it builds, given by
    its options, and the minimal target it keeps. *)
Record CloudflareR2CacheStorageWrapper : Type := mkWrapper {
  r2Provider : CloudflareR2CacheProvider.CloudflareR2CacheProviderOptions;
  target : Target
}.

(** [constructor(config, cwd, logger, backfillLogger)] *)
Definition new (config : CloudflareR2CacheStorageConfig.options) (cwd : string)
  : CloudflareR2CacheStorageWrapper :=
  {| r2Provider :=
       {| CloudflareR2CacheProvider.accountId := CloudflareR2CacheStorageConfig.accountId config;
          CloudflareR2CacheProvider.bucket := CloudflareR2CacheStorageConfig.bucket config;
          CloudflareR2CacheProvider.apiToken := CloudflareR2CacheStorageConfig.apiToken config;
          CloudflareR2CacheProvider.endpoint := CloudflareR2CacheStorageConfig.endpoint config;
          CloudflareR2CacheProvider.region := CloudflareR2CacheStorageConfig.region config;
          CloudflareR2CacheProvider.maxSize := CloudflareR2CacheStorageConfig.maxSize config;
          CloudflareR2CacheProvider.root := cwd |};
     target := {| id := "backfill-target"; cwd := cwd; outputs := Some ["**/*"] |} |}.

(** [async fetch(hash)] *)
Definition fetch (this : CloudflareR2CacheStorageWrapper)
    (env : CloudflareR2CacheProvider.Backend) (hash : string) : io bool :=
  CloudflareR2CacheProvider.fetch (r2Provider this) env hash (target this).

(** [async put(hash, outputGlob)] *)
Definition put (this : CloudflareR2CacheStorageWrapper)
    (env : CloudflareR2CacheProvider.Backend) (hash : string)
    (outputGlob : list string) : io unit :=
  let targetWithOutputs :=
    {| id := id (target this); cwd := cwd (target this);
       outputs := Some outputGlob |} in
  CloudflareR2CacheProvider.put (r2Provider this) env hash targetWithOutputs.

End CloudflareR2CacheStorageWrapper.

(** ** The remote-fallback orchestrator *)

Module RemoteFallbackCacheProvider.

Import LRU.

Inductive tier : Type := Local | Remote.

(** A method call the orchestrator makes on one of its two providers. *)
Inductive call : Type :=
| Fetch (t : tier) (hash : string) (target : Target)
| Put (t : tier) (hash : string) (target : Target)
| Clear (t : tier)
| Purge (t : tier) (sinceDays : N).

Definition is_remote_fetch (c : call) : bool :=
  match c with Fetch Remote _ _ => true | _ => false end.

Definition is_local_put (c : call) : bool :=
  match c with Put Local _ _ => true | _ => false end.

Definition is_remote_put (c : call) : bool :=
  match c with Put Remote _ _ => true | _ => false end.

Section Orchestrator.

(** Everything the providers can read or change: file system, object
    store, and the clock [now] that the hit tables read. *)
Context {W : Type}.
Variable now : W -> N.

(** Modelled from the spec: the [CacheProvider] interface of
    types/CacheProvider.ts, which is not among the sources.  [fetch]
    returns true on a satisfied hit and false on any miss or recoverable
    failure and never throws; [put], [clear] and [purge] return nothing
    and do not throw. *)
Record CacheProvider : Type := mkProvider {
  cp_fetch : string -> Target -> W -> bool * W;
  cp_put : string -> Target -> W -> W;
  cp_clear : W -> W;
  cp_purge : N -> W -> W
}.

(** [RemoteFallbackCacheProviderOptions] without [root] and [logger]. *)
Record RemoteFallbackCacheProviderOptions : Type := mkOptions {
  localCacheProvider : option CacheProvider;
  remoteCacheProvider : option CacheProvider;
  writeRemoteCache : option bool
}.

(** The process: the two static hit tables, shared by every instance,
    the world, and the provider calls made so far, oldest first. *)
Record State : Type := mkState {
  localHits : LRUCache;
  remoteHits : LRUCache;
  world : W;
  calls : list call
}.

Definition M (A : Type) : Type := State -> A * State.

Definition mret {A} (a : A) : M A := fun s => (a, s).

Definition mbind {A B} (m : M A) (f : A -> M B) : M B :=
  fun s => let (a, s') := m s in f a s'.

Declare Scope st_scope.
Delimit Scope st_scope with st.
Local Notation "x <- m ;; k" := (mbind m (fun x => k))
  (at level 61, m at next level, right associativity) : st_scope.
Local Notation "m ;;; k" := (mbind m (fun _ => k))
  (at level 61, right associativity) : st_scope.
Local Open Scope st_scope.

(** [await provider.fetch(hash, target)] *)
Definition call_fetch (t : tier) (p : CacheProvider) (hash : string)
    (target : Target) : M bool :=
  fun s =>
    let (hit, w) := cp_fetch p hash target (world s) in
    (hit, {| localHits := localHits s; remoteHits := remoteHits s;
             world := w; calls := calls s ++ [Fetch t hash target] |}).

(** [provider.put(hash, target)] *)
Definition call_put (t : tier) (p : CacheProvider) (hash : string)
    (target : Target) : M unit :=
  fun s =>
    (tt, {| localHits := localHits s; remoteHits := remoteHits s;
            world := cp_put p hash target (world s);
            calls := calls s ++ [Put t hash target] |}).

Definition call_clear (t : tier) (p : CacheProvider) : M unit :=
  fun s =>
    (tt, {| localHits := localHits s; remoteHits := remoteHits s;
            world := cp_clear p (world s);
            calls := calls s ++ [Clear t] |}).

Definition call_purge (t : tier) (p : CacheProvider) (sinceDays : N) : M unit :=
  fun s =>
    (tt, {| localHits := localHits s; remoteHits := remoteHits s;
            world := cp_purge p sinceDays (world s);
            calls := calls s ++ [Purge t sinceDays] |}).

(** [RemoteFallbackCacheProvider.localHits.set(hash, v)] *)
Definition localHits_set (hash : string) (v : bool) : M unit :=
  fun s =>
    (tt, {| localHits := LRU.set hash v (now (world s)) (localHits s);
            remoteHits := remoteHits s;
            world := world s; calls := calls s |}).

(** [RemoteFallbackCacheProvider.localHits.get(hash)] *)
Definition localHits_get (hash : string) : M (option bool) :=
  fun s =>
    let (v, c) := LRU.get hash (now (world s)) (localHits s) in
    (v, {| localHits := c; remoteHits := remoteHits s;
           world := world s; calls := calls s |}).

(** [RemoteFallbackCacheProvider.remoteHits.set(hash, v)] *)
Definition remoteHits_set (hash : string) (v : bool) : M unit :=
  fun s =>
    (tt, {| localHits := localHits s;
            remoteHits := LRU.set hash v (now (world s)) (remoteHits s);
            world := world s; calls := calls s |}).

(** [RemoteFallbackCacheProvider.remoteHits.get(hash)] *)
Definition remoteHits_get (hash : string) : M (option bool) :=
  fun s =>
    let (v, c) := LRU.get hash (now (world s)) (remoteHits s) in
    (v, {| localHits := localHits s; remoteHits := c;
           world := world s; calls := calls s |}).

(** [v || false] for [v : boolean | undefined] *)
Definition or_false (v : option bool) : bool :=
  match v with Some b => b | None => false end.

(** The first half of [fetch]: ask the local provider, if there is one,
    record its answer, then read the local hit table back. *)
Definition lookup_local (opts : RemoteFallbackCacheProviderOptions)
    (hash : string) (target : Target) : M (option bool) :=
  match localCacheProvider opts with
  | Some lp =>
      localHit <- call_fetch Local lp hash target ;;
      localHits_set hash localHit
  | None => mret tt
  end ;;;
  localHits_get hash.

(** [async fetch(hash, target)] *)
Definition fetch (opts : RemoteFallbackCacheProviderOptions)
    (hash : string) (target : Target) : M bool :=
  localHit <- lookup_local opts hash target ;;
  match or_false localHit, remoteCacheProvider opts with
  | false, Some rp =>
      remoteHit <- call_fetch Remote rp hash target ;;
      remoteHits_set hash remoteHit ;;;
      match localCacheProvider opts, remoteHit with
      | Some lp, true => call_put Local lp hash target
      | _, _ => mret tt
      end ;;;
      mret remoteHit
  | _, _ => mret (or_false localHit)
  end.

(** [private isRemoteHit(hash)] *)
Definition isRemoteHit (hash : string) : M bool :=
  v <- remoteHits_get hash ;; mret (or_false v).

(** [private isLocalHit(hash)] *)
Definition isLocalHit (hash : string) : M bool :=
  v <- localHits_get hash ;; mret (or_false v).

(** [async put(hash, target)].  The two writes are started in this order
    and awaited together; their effects on the world are taken one after
    the other. *)
Definition put (opts : RemoteFallbackCacheProviderOptions)
    (hash : string) (target : Target) : M unit :=
  localHit <- isLocalHit hash ;;
  match negb localHit, localCacheProvider opts with
  | true, Some lp => call_put Local lp hash target
  | _, _ => mret tt
  end ;;;
  remoteHit <- isRemoteHit hash ;;
  match negb remoteHit, remoteCacheProvider opts, writeRemoteCache opts with
  | true, Some rp, Some true => call_put Remote rp hash target
  | _, _, _ => mret tt
  end.

(** [async clear()] *)
Definition clear (opts : RemoteFallbackCacheProviderOptions) : M unit :=
  (fun s =>
     (tt, {| localHits := LRU.clear (localHits s);
             remoteHits := LRU.clear (remoteHits s);
             world := world s; calls := calls s |})) ;;;
  match localCacheProvider opts with
  | Some lp => call_clear Local lp
  | None => mret tt
  end.

(** [async purge(sinceDays)] *)
Definition purge (opts : RemoteFallbackCacheProviderOptions)
    (sinceDays : N) : M unit :=
  match localCacheProvider opts with
  | Some lp => call_purge Local lp sinceDays
  | None => mret tt
  end.

(** The provider calls made between state [s] and a later state [s']. *)
Definition made (s s' : State) : list call :=
  skipn (length (calls s)) (calls s').

(** Both hit tables have capacity [capacity] and hold no more entries
    than that. *)
Definition bounded (capacity : nat) (s : State) : Prop :=
  max (localHits s) = capacity /\ max (remoteHits s) = capacity
  /\ size (localHits s) <= capacity /\ size (remoteHits s) <= capacity.

(** A computation keeps the hit tables bounded. *)
Definition keeps_bounded {A} (capacity : nat) (m : M A) : Prop :=
  forall s, bounded capacity s -> bounded capacity (snd (m s)).

(** *** Runs of the process *)

(** One thing that happens to the process: a method call on some
    orchestrator instance (each with its own options), or the world
    moving on by itself. *)
Inductive op : Type :=
| OpFetch (opts : RemoteFallbackCacheProviderOptions) (hash : string) (target : Target)
| OpPut (opts : RemoteFallbackCacheProviderOptions) (hash : string) (target : Target)
| OpClear (opts : RemoteFallbackCacheProviderOptions)
| OpPurge (opts : RemoteFallbackCacheProviderOptions) (sinceDays : N)
| OpElapse (f : W -> W).

Definition step (o : op) (s : State) : State :=
  match o with
  | OpFetch opts hash target => snd (fetch opts hash target s)
  | OpPut opts hash target => snd (put opts hash target s)
  | OpClear opts => snd (clear opts s)
  | OpPurge opts d => snd (purge opts d s)
  | OpElapse f =>
      {| localHits := localHits s; remoteHits := remoteHits s;
         world := f (world s); calls := calls s |}
  end.

Definition run (ops : list op) (s : State) : State :=
  fold_left (fun s o => step o s) ops s.

(** The process at start, with hit tables of capacity [capacity]. *)
Definition start_with (capacity : nat) (ttl : N) (w : W) : State :=
  {| localHits := LRU.create capacity ttl;
     remoteHits := LRU.create capacity ttl;
     world := w; calls := [] |}.

(** [max: 10000] and [ttl: 1000 * 60 * 60], as the class declares them. *)
#[warnings="-abstract-large-number"]
Definition hits_max : nat := 10000.
Definition hits_ttl : N := 1000 * 60 * 60.

Definition start (w : W) : State := start_with hits_max hits_ttl w.

End Orchestrator.

End RemoteFallbackCacheProvider.

(** ** Concrete configurations, after the unit tests *)

Module Examples.

Import CloudflareR2CacheProvider.

Definition tempDir : string := "/tmp/lage-r2-test".

Definition options (maxSize : option N) : CloudflareR2CacheProviderOptions :=
  {| accountId := "test-account-id";
     bucket := "test-bucket";
     apiToken := "test-api-token";
     endpoint := None;
     region := None;
     maxSize := maxSize;
     root := tempDir |}.

Definition target (outputs : list string) : Target :=
  {| id := "test-package"; cwd := tempDir; outputs := Some outputs |}.

Definition testHash : string := "abc123hash".

Definition MB : N := 1024 * 1024.

(** One chunk after 5 ms, end of stream after 9 ms. *)
Definition prompt_body : Readable :=
  {| arrivals := [(5, "tar")%N]; finishes := Ends 9; timer_first := true |}.

(** Nothing ever arrives. *)
Definition stalled_body : Readable :=
  {| arrivals := []; finishes := Stalls; timer_first := false |}.

(** A first chunk after one second, a second one two hours later, end of
    stream after three hours. *)
Definition slow_body : Readable :=
  {| arrivals := [(1000, "tar-1"); (7200000, "tar-2")]%N;
     finishes := Ends 10800000; timer_first := true |}.

Definition lookup_file (files : list (string * N)) (p : string) : option N :=
  match List.find (fun f => String.eqb (fst f) p) files with
  | Some f => Some (snd f)
  | None => None
  end.

(** A store holding one object of [len] bytes that streams as [body], over
    a file system holding exactly [files]. *)
Definition backend (len : N) (body : Readable) (files : list (string * N)) : Backend :=
  {| head_object := fun _ _ => Resolved {| ContentLength := Some len |};
     get_object := fun _ _ => Resolved {| Body := Some body |};
     put_object := fun _ _ _ => Resolved tt;
     path_resolve := fun cwd glob => (cwd ++ "/" ++ glob)%string;
     fs_existsSync := fun p =>
       match lookup_file files p with Some _ => true | None => false end;
     fs_stat := fun p =>
       match lookup_file files p with
       | Some n => Resolved {| size := n |}
       | None => Rejected {| name := "Error"; message := "ENOENT"; httpStatusCode := None |}
       end;
     tar_extract := fun _ _ => Resolved tt |}.

(** A store that answers every command with the error [e]. *)
Definition failing_store (e : JsError) : Backend :=
  {| head_object := fun _ _ => Rejected e;
     get_object := fun _ _ => Rejected e;
     put_object := fun _ _ _ => Rejected e;
     path_resolve := fun cwd glob => (cwd ++ "/" ++ glob)%string;
     fs_existsSync := fun _ => false;
     fs_stat := fun _ => Rejected e;
     tar_extract := fun _ _ => Resolved tt |}.

Definition access_denied : JsError :=
  {| name := "Error"; message := "Access denied"; httpStatusCode := None |}.

(** The two 600 KB files of the size-limit test. *)
Definition two_large_files : list (string * N) :=
  [("/tmp/lage-r2-test/lib/file1.js", 600 * 1024);
   ("/tmp/lage-r2-test/dist/file2.js", 600 * 1024)]%N.

Import RemoteFallbackCacheProvider.

(** Providers over a world that is just the clock. *)
Definition answering (b : bool) : @CacheProvider N :=
  {| cp_fetch := fun _ _ w => (b, w);
     cp_put := fun _ _ w => w;
     cp_clear := fun w => w;
     cp_purge := fun _ w => w |}.

Definition tiers (l r : option (@CacheProvider N)) (write : option bool)
  : @RemoteFallbackCacheProviderOptions N :=
  {| localCacheProvider := l; remoteCacheProvider := r; writeRemoteCache := write |}.

Definition clock : N -> N := fun w => w.

(** Fetching [k1] to [k5] in order through an orchestrator whose two
    providers miss every time. *)
Definition five_fetches : list (@op N) :=
  map (fun k => OpFetch (tiers (Some (answering false)) (Some (answering false)) None)
                        k (target ["lib/**/*"]))
      ["k1"; "k2"; "k3"; "k4"; "k5"].

End Examples.

(** ** Two sentences of the specification, as they are worded *)

Module AsStated.

Import CloudflareR2CacheProvider.

(** "Object-storage put with a configured maximum size of S performs no
    upload when the estimated output size exceeds S." *)
Definition put_size_limit : Prop :=
  forall opts env k target S total,
    k <> "" ->
    maxSize opts = Some S ->
    result_of (estimate env (cwd target) (outputGlob_of target) 0%N) = Resolved total ->
    (S < total)%N ->
    result_of (put opts env k target) = Resolved tt
    /\ filter is_upload (log_of (put opts env k target)) = [].

(** "Object-storage fetch with a configured maximum size of S returns
    false and performs no download when the probed size exceeds S." *)
Definition fetch_size_limit : Prop :=
  forall opts env k target S len,
    k <> "" ->
    maxSize opts = Some S ->
    head_object env (bucket opts) k = Resolved {| ContentLength := Some len |} ->
    (S < len)%N ->
    result_of (fetch opts env k target) = Resolved false
    /\ filter is_download (log_of (fetch opts env k target)) = [].

End AsStated.

(** ** Notions used by the further properties *)

Module Further.

Import CloudflareR2CacheProvider.

(** [stat.size] of a path whose [stat] resolves. *)
Definition stat_size (env : Backend) (p : string) : N :=
  match fs_stat env p with
  | Resolved st => size st
  | _ => 0%N
  end.

(** The sizes of the output entries that exist as literal paths, added up
    entry by entry (an entry listed twice counts twice). *)
Fixpoint literal_total (env : Backend) (cwd : string) (outputGlob : list string) : N :=
  match outputGlob with
  | [] => 0%N
  | glob :: rest =>
      ((if fs_existsSync env (path_resolve env cwd glob)
        then stat_size env (path_resolve env cwd glob)
        else 0) + literal_total env cwd rest)%N
  end.

(** [stat] resolves for every output entry that exists as a literal path. *)
Definition stats_resolve (env : Backend) (cwd : string) (outputGlob : list string) : bool :=
  forallb (fun glob =>
             if fs_existsSync env (path_resolve env cwd glob)
             then match fs_stat env (path_resolve env cwd glob) with
                  | Resolved _ => true
                  | _ => false
                  end
             else true)
          outputGlob.

(** A store whose object has no body. *)
Definition bodiless_store : Backend :=
  {| head_object := fun _ _ => Resolved {| ContentLength := Some 1000%N |};
     get_object := fun _ _ => Resolved {| Body := None |};
     put_object := fun _ _ _ => Resolved tt;
     path_resolve := fun cwd glob => (cwd ++ "/" ++ glob)%string;
     fs_existsSync := fun _ => false;
     fs_stat := fun _ => Rejected (new_Error "ENOENT");
     tar_extract := fun _ _ => Resolved tt |}.

(** A store whose object downloads promptly but does not unpack. *)
Definition corrupt_store : Backend :=
  {| head_object := fun _ _ => Resolved {| ContentLength := Some 1000%N |};
     get_object := fun _ _ => Resolved {| Body := Some Examples.prompt_body |};
     put_object := fun _ _ _ => Resolved tt;
     path_resolve := fun cwd glob => (cwd ++ "/" ++ glob)%string;
     fs_existsSync := fun _ => false;
     fs_stat := fun _ => Rejected (new_Error "ENOENT");
     tar_extract := fun _ _ => Rejected (new_Error "Invalid tar header") |}.

(** A file system on which every path exists but cannot be stat'ed: the
    entry vanished between [existsSync] and [stat]. *)
Definition vanishing_files : Backend :=
  {| head_object := fun _ _ => Resolved {| ContentLength := Some 1000%N |};
     get_object := fun _ _ => Resolved {| Body := Some Examples.prompt_body |};
     put_object := fun _ _ _ => Resolved tt;
     path_resolve := fun cwd glob => (cwd ++ "/" ++ glob)%string;
     fs_existsSync := fun _ => true;
     fs_stat := fun _ => Rejected (new_Error "ENOENT");
     tar_extract := fun _ _ => Resolved tt |}.

(** The configuration of the integration tests. *)
Definition r2_config : CloudflareR2CacheStorageConfig.options :=
  {| CloudflareR2CacheStorageConfig.accountId := "test-account";
     CloudflareR2CacheStorageConfig.bucket := "test-bucket";
     CloudflareR2CacheStorageConfig.apiToken := "test-token";
     CloudflareR2CacheStorageConfig.endpoint := None;
     CloudflareR2CacheStorageConfig.region := None;
     CloudflareR2CacheStorageConfig.maxSize := None |}.

(** The first half of the orchestrator's [put]: the check of the local hit
    table and the local write, up to the check of the remote hit table. *)
Definition put_local {W : Type} (now : W -> N)
    (opts : @RemoteFallbackCacheProvider.RemoteFallbackCacheProviderOptions W)
    (hash : string) (target : Target) : RemoteFallbackCacheProvider.M unit :=
  RemoteFallbackCacheProvider.mbind
    (RemoteFallbackCacheProvider.isLocalHit now hash)
    (fun localHit =>
       match negb localHit, RemoteFallbackCacheProvider.localCacheProvider opts with
       | true, Some lp =>
           RemoteFallbackCacheProvider.call_put RemoteFallbackCacheProvider.Local
             lp hash target
       | _, _ => RemoteFallbackCacheProvider.mret tt
       end).

(** A clock that runs one hour and one millisecond ahead. *)
Definition an_hour_later (w : N) : N := (w + 3600001)%N.

End Further.

(** ** Least recently used, in the words of the specification *)

Module Recency.

Import RemoteFallbackCacheProvider.

(** The keys of a sequence of touches, each once, ordered by their last
    touch, the most recent first ([nodup] keeps the last occurrence of each
    key). *)
Definition by_last_touch (touched : list string) : list string :=
  rev (nodup string_dec touched).

(** What a least-recently-used table of [capacity] entries holds after the
    keys [touched] have been touched in that order: the [capacity] keys
    touched most recently. *)
Definition most_recently_touched (capacity : nat) (touched : list string)
  : list string :=
  firstn capacity (by_last_touch touched).

(** The key of a [fetch] or a [put]. *)
Definition op_key {W : Type} (o : @op W) : string :=
  match o with
  | OpFetch _ k _ | OpPut _ k _ => k
  | _ => ""
  end.

(** A [fetch] through an instance with a local provider: it records the key
    in the local hit table. *)
Definition records_locally {W : Type} (o : @op W) : bool :=
  match o with
  | OpFetch opts _ _ =>
      match localCacheProvider opts with Some _ => true | None => false end
  | _ => false
  end.

(** A [fetch] through an instance with a remote provider and no local one:
    with nothing in the local hit table, it records the key in the remote
    hit table. *)
Definition records_remotely {W : Type} (o : @op W) : bool :=
  match o with
  | OpFetch opts _ _ =>
      match localCacheProvider opts, remoteCacheProvider opts with
      | None, Some _ => true
      | _, _ => false
      end
  | _ => false
  end.

(** Fetching [k1], [k2], [k3], [k1] again and then [k4] through an
    orchestrator whose two providers miss every time. *)
Definition refetching_k1 : list (@op N) :=
  map (fun k => OpFetch (Examples.tiers (Some (Examples.answering false))
                           (Some (Examples.answering false)) None)
                        k (Examples.target ["lib/**/*"]))
      ["k1"; "k2"; "k3"; "k1"; "k4"].

(** The same through an orchestrator with a remote provider only. *)
Definition refetching_k1_remotely : list (@op N) :=
  map (fun k => OpFetch (Examples.tiers None (Some (Examples.answering true)) None)
                        k (Examples.target ["lib/**/*"]))
      ["k1"; "k2"; "k3"; "k1"; "k4"].

End Recency.

(** ** The empty key, in the words of the specification *)

Module EmptyKey.

Import RemoteFallbackCacheProvider.

(** Fetch and put with the empty key are no-ops regardless of tier
    configuration: for the object-storage provider with any options, and
    for the orchestrator with any providers. *)
Definition noop_for_every_tier : Prop :=
  (forall opts env target,
      result_of (CloudflareR2CacheProvider.fetch opts env "" target) = Resolved false
      /\ requests (log_of (CloudflareR2CacheProvider.fetch opts env "" target)) = []
      /\ result_of (CloudflareR2CacheProvider.put opts env "" target) = Resolved tt
      /\ log_of (CloudflareR2CacheProvider.put opts env "" target) = [])
  /\ (forall (W : Type) (now : W -> N)
             (opts : @RemoteFallbackCacheProviderOptions W)
             (target : Target) (s : @State W),
        fst (fetch now opts "" target s) = false
        /\ made s (snd (fetch now opts "" target s)) = []
        /\ made s (snd (put now opts "" target s)) = []).

End EmptyKey.

(** * Properties *)

(** ** Async computations *)

Section AsyncFacts.

Context {A : Type}.

Lemma try_catch_never_rejects (m : io A) (h : JsError -> io A) :
  (forall e, exists l a, h e = (l, Resolved a)) ->
  forall e, result_of (try_catch m h) <> Rejected e.
Proof.
  intros Hh e. destruct m as [l [a | e0 | ]]; simpl; try discriminate.
  destruct (Hh e0) as (l' & a & ->). simpl. discriminate.
Qed.

(** A [try] block whose first step resolves. *)
Lemma try_catch_bind_resolved {B : Type} (l : list effect) (b : B)
    (f : B -> io A) (h : JsError -> io A) :
  try_catch (bind (l, Resolved b) f) h =
  (l ++ log_of (try_catch (f b) h), result_of (try_catch (f b) h)).
Proof.
  simpl. destruct (f b) as [l2 [a | e | ]]; simpl; try reflexivity.
  destruct (h e) as [l3 r]. simpl. now rewrite app_assoc.
Qed.

End AsyncFacts.

(** ** The timeout guard *)

Section TimeoutFacts.

(** Once the timer is cleared, every later chunk is passed on, whenever it
    arrives. *)
Lemma feed_disarmed (first : bool) (l : list (N * chunk)) :
  forall ts,
    timeout ts = None -> destroyed ts = None ->
    feed first ts l =
    {| timeout := None; timeoutError := timeoutError ts;
       pushed := pushed ts ++ map snd l; destroyed := None |}.
Proof.
  induction l as [| [t c] l IH]; intros ts Ht Hd; simpl.
  - rewrite app_nil_r. destruct ts; simpl in *; congruence.
  - rewrite Hd. unfold due. rewrite Ht.
    rewrite IH by (simpl; auto). simpl. now rewrite <- app_assoc.
Qed.

(** Whoever goes first on a tie, a fresh timer is due before any later event
    and not before any earlier one. *)
Lemma due_later (first : bool) (T t : N) (msg : string) :
  (T < t)%N -> due first (new_TimeoutStream 0 T msg) t = true.
Proof.
  intros H. unfold due. simpl. apply N.ltb_lt in H. now rewrite H.
Qed.

Lemma due_earlier (first : bool) (T t : N) (msg : string) :
  (t < T)%N -> due first (new_TimeoutStream 0 T msg) t = false.
Proof.
  intros H. unfold due. simpl.
  destruct (T <? t)%N eqn:E1; [apply N.ltb_lt in E1; lia |].
  destruct (T =? t)%N eqn:E2; [apply N.eqb_eq in E2; lia |].
  now rewrite andb_false_r.
Qed.

(** A source that is silent until the timer fires gets the stream
    destroyed by the timer's callback, with the timer's error. *)
Lemma pipeline_times_out (body : Readable) (T : N) (msg : string)
    (sink : list chunk -> outcome unit) :
  silent_for T body = true ->
  pipelineAsync body (new_TimeoutStream 0 T msg) sink = Rejected (new_Error msg).
Proof.
  unfold silent_for, pipelineAsync. intros H.
  apply andb_true_iff in H. destruct H as [Harr Hfin].
  destruct (arrivals body) as [| [t c] l]; cbn [feed].
  - cbn [destroyed new_TimeoutStream pushed first_failure].
    destruct (finishes body) as [t | t e | ]; cbn [at_finish].
    + apply N.ltb_lt in Hfin. now rewrite due_later.
    + apply N.ltb_lt in Hfin. now rewrite due_later.
    + reflexivity.
  - cbn [forallb fst] in Harr. apply andb_true_iff in Harr. destruct Harr as [Ht _].
    apply N.ltb_lt in Ht. cbn [destroyed new_TimeoutStream].
    now rewrite due_later.
Qed.

Lemma feed_first_chunk (first : bool) (T : N) (msg : string)
    (t1 : N) (c1 : chunk) (rest : list (N * chunk)) :
  (t1 < T)%N ->
  feed first (new_TimeoutStream 0 T msg) ((t1, c1) :: rest) =
  {| timeout := None; timeoutError := new_Error msg;
     pushed := c1 :: map snd rest; destroyed := None |}.
Proof.
  intros Ht. cbn [feed destroyed new_TimeoutStream].
  rewrite due_earlier by exact Ht.
  now rewrite feed_disarmed.
Qed.

(** A first chunk that arrives before the timer fires disarms it for
    good: how the pipeline settles no longer depends on any time. *)
Lemma pipeline_after_first_chunk (body : Readable) (T : N) (msg : string)
    (sink : list chunk -> outcome unit) (t1 : N) (c1 : chunk)
    (rest : list (N * chunk)) :
  arrivals body = (t1, c1) :: rest ->
  (t1 < T)%N ->
  pipelineAsync body (new_TimeoutStream 0 T msg) sink =
  settles_as sink (c1 :: map snd rest) (finishes body).
Proof.
  intros Harr Ht. unfold pipelineAsync, settles_as. rewrite Harr.
  rewrite (feed_first_chunk _ T msg t1 c1 rest Ht). cbn [destroyed pushed].
  destruct (first_failure sink [] (c1 :: map snd rest)); [reflexivity |].
  destruct (finishes body); reflexivity.
Qed.

(** A sink that has raised no error on the way has not rejected what it
    received in the end. *)
Lemma first_failure_none (sink : list chunk -> outcome unit) (rest : list chunk) :
  forall seen e,
    first_failure sink seen rest = None ->
    rest <> [] ->
    sink (seen ++ rest) <> Rejected e.
Proof.
  induction rest as [| c rest IH]; intros seen e Hnone Hne; [congruence |].
  simpl in Hnone.
  destruct (sink (seen ++ [c])) as [u | e0 | ] eqn:Hc; try discriminate.
  - destruct rest as [| c' rest']; [congruence |].
    replace (seen ++ c :: c' :: rest') with ((seen ++ [c]) ++ c' :: rest')
      by now rewrite <- app_assoc.
    apply IH; [exact Hnone | discriminate].
  - destruct rest as [| c' rest']; [congruence |].
    replace (seen ++ c :: c' :: rest') with ((seen ++ [c]) ++ c' :: rest')
      by now rewrite <- app_assoc.
    apply IH; [exact Hnone | discriminate].
Qed.

(** A sink that rejects the chunks of a source that ends, and a source that
    fails, both settle with an error. *)
Lemma settles_rejected (sink : list chunk -> outcome unit)
    (c1 : chunk) (chunks : list chunk) (f : finish) :
  match f with
  | Ends _ => exists e, sink (c1 :: chunks) = Rejected e
  | Fails _ _ => True
  | Stalls => False
  end ->
  exists e, settles_as sink (c1 :: chunks) f = Rejected e.
Proof.
  intros H. unfold settles_as.
  destruct (first_failure sink [] (c1 :: chunks)) as [e |] eqn:Hff; [eauto |].
  destruct f as [t | t e | ]; [| eauto | contradiction].
  destruct H as [e He]. exfalso.
  apply (first_failure_none sink (c1 :: chunks) [] e Hff); [discriminate | exact He].
Qed.

End TimeoutFacts.

(** ** The Cloudflare R2 provider *)

Section R2Facts.

Import CloudflareR2CacheProvider.

Variable opts : CloudflareR2CacheProviderOptions.
Variable env : Backend.

Lemma nonempty_key (k : string) : k <> "" -> String.eqb k "" = false.
Proof. intros H. now apply String.eqb_neq. Qed.

(** The [catch] block of [fetch] logs one line and returns false. *)
Lemma fetch_catch_resolves (k : string) (error : JsError) :
  exists line, fetch_catch k error = ([Silly line], Resolved false).
Proof. unfold fetch_catch. destruct (is_not_found error); simpl; eauto. Qed.

Lemma put_catch_resolves (error : JsError) :
  put_catch error = ([Silly (PutFailed (message_of error))], Resolved tt).
Proof. reflexivity. Qed.

Lemma fetch_never_rejects (k : string) (target : Target) (e : JsError) :
  result_of (fetch opts env k target) <> Rejected e.
Proof.
  unfold fetch. destruct (String.eqb k ""); [simpl; discriminate |].
  apply try_catch_never_rejects. intros e0.
  destruct (fetch_catch_resolves k e0) as [line ->]. eauto.
Qed.

Lemma put_never_rejects (k : string) (target : Target) (e : JsError) :
  result_of (put opts env k target) <> Rejected e.
Proof.
  unfold put. destruct (String.eqb k ""); [simpl; discriminate |].
  apply try_catch_never_rejects. intros e0.
  rewrite put_catch_resolves. eauto.
Qed.

(** The size loop sends nothing and writes no log line. *)
Lemma estimate_log (cwd : string) (globs : list string) :
  forall n, log_of (estimate env cwd globs n) = [].
Proof.
  induction globs as [| g globs IH]; intros n; simpl; [reflexivity |].
  destruct (fs_existsSync env (path_resolve env cwd g)); [| apply IH].
  unfold await. destruct (fs_stat env (path_resolve env cwd g)) as [st | e | ];
    simpl; try reflexivity.
  specialize (IH (n + size st)%N).
  destruct (estimate env cwd globs (n + size st)%N) as [l r]. simpl in *.
  now subst.
Qed.

(** Only the entries that exist as literal paths take part in the sum. *)
Lemma estimate_filter (cwd : string) (globs : list string) :
  forall n,
    estimate env cwd globs n =
    estimate env cwd
      (filter (fun g => fs_existsSync env (path_resolve env cwd g)) globs) n.
Proof.
  induction globs as [| g globs IH]; intros n; simpl; [reflexivity |].
  destruct (fs_existsSync env (path_resolve env cwd g)) eqn:E; simpl.
  - rewrite E. destruct (fs_stat env (path_resolve env cwd g)); simpl;
      try reflexivity. now rewrite IH.
  - apply IH.
Qed.

Lemma estimate_nothing_exists (cwd : string) (globs : list string) :
  (forall g, In g globs -> fs_existsSync env (path_resolve env cwd g) = false) ->
  forall n, estimate env cwd globs n = ([], Resolved n).
Proof.
  induction globs as [| g globs IH]; intros H n; simpl; [reflexivity |].
  rewrite (H g) by (left; reflexivity).
  apply IH. intros g' Hg'. apply H. now right.
Qed.

(** When [fetch] sends the [GetObjectCommand], what follows is the
    download, under the [catch] block of [fetch]. *)
Lemma fetch_reaches_download (k : string) (target : Target) :
  In (Send (GetObjectCommand (bucket opts) k)) (log_of (fetch opts env k target)) ->
  exists pre,
    fetch opts env k target =
    (pre ++ log_of (try_catch (download opts env k target) (fetch_catch k)),
     result_of (try_catch (download opts env k target) (fetch_catch k))).
Proof.
  unfold fetch. destruct (String.eqb k ""); [simpl; tauto |].
  assert (Hskip : exists pre,
    try_catch (download opts env k target) (fetch_catch k) =
    (pre ++ log_of (try_catch (download opts env k target) (fetch_catch k)),
     result_of (try_catch (download opts env k target) (fetch_catch k)))).
  { exists []. simpl. now destruct (try_catch _ _). }
  destruct (maxSize opts) as [[| m] |]; try (intros _; exact Hskip).
  intros Hin. unfold send in *.
  destruct (head_object env (bucket opts) k) as [[cl] | e | ].
  - exists [Send (HeadObjectCommand (bucket opts) k)].
    change (bind (emit (Send (HeadObjectCommand (bucket opts) k)))
              (fun _ => await (Resolved {| ContentLength := cl |})))
      with ([Send (HeadObjectCommand (bucket opts) k)],
            Resolved {| ContentLength := cl |}) in *.
    rewrite try_catch_bind_resolved in *. cbn [ContentLength] in *.
    destruct cl as [[| len] |]; try reflexivity.
    destruct (N.pos m <? N.pos len)%N; [| reflexivity].
    simpl in Hin. intuition discriminate.
  - simpl in Hin. destruct (fetch_catch_resolves k e) as [line Hline].
    rewrite Hline in Hin. simpl in Hin. intuition discriminate.
  - simpl in Hin. intuition discriminate.
Qed.

(** When [put] sends a [PutObjectCommand], it resolves whatever the store
    answers, short of never answering. *)
Lemma put_after_upload (k : string) (target : Target) (body : TarStream)
    (ct : string) :
  In (Send (PutObjectCommand (bucket opts) k body ct)) (log_of (put opts env k target)) ->
  put_object env (bucket opts) k body <> Pending ->
  result_of (put opts env k target) = Resolved tt.
Proof.
  unfold put. destruct (String.eqb k ""); [reflexivity |].
  assert (Hup :
    In (Send (PutObjectCommand (bucket opts) k body ct))
       (log_of (try_catch
                  (upload opts env k target (outputGlob_of target)) put_catch)) ->
    put_object env (bucket opts) k body <> Pending ->
    result_of (try_catch
                 (upload opts env k target (outputGlob_of target)) put_catch)
    = Resolved tt).
  { intros Hin Hanswer. unfold upload, send in *.
    set (b := tar_pack (cwd target) (pack_entries_of (outputGlob_of target))) in *.
    assert (body = b).
    { simpl in Hin.
      destruct (put_object env (bucket opts) k b); simpl in Hin;
        intuition congruence. }
    subst body. simpl.
    destruct (put_object env (bucket opts) k b); simpl; congruence. }
  destruct (maxSize opts) as [[| m] |]; cbv zeta; try exact Hup.
  pose proof (estimate_log (cwd target) (outputGlob_of target) 0%N) as Hlog.
  destruct (estimate env (cwd target) (outputGlob_of target) 0%N) as [l [n | e | ]];
    simpl in Hlog; subst l.
  - rewrite try_catch_bind_resolved.
    destruct (N.pos m <? n)%N; [reflexivity |]. exact Hup.
  - reflexivity.
  - simpl. intuition discriminate.
Qed.

(** The download sends one command, the [GetObjectCommand]. *)
Lemma download_log (k : string) (target : Target) :
  exists lines,
    log_of (try_catch (download opts env k target) (fetch_catch k)) =
    Send (GetObjectCommand (bucket opts) k) :: map Silly lines.
Proof.
  unfold download, send.
  destruct (get_object env (bucket opts) k) as [[[body |]] | e | ]; simpl.
  - destruct (pipelineAsync _ _ _) as [[] | e | ]; simpl.
    + now exists [FetchedFromR2 k].
    + destruct (fetch_catch_resolves k e) as [line ->]. now exists [line].
    + now exists [].
  - now exists [FetchFailed "No body in R2 response"].
  - destruct (fetch_catch_resolves k e) as [line ->]. now exists [line].
  - now exists [].
Qed.

Lemma download_rejected (k : string) (target : Target) (e : JsError) :
  get_object env (bucket opts) k = Rejected e ->
  result_of (try_catch (download opts env k target) (fetch_catch k)) = Resolved false.
Proof.
  intros H. unfold download, send. rewrite H. simpl.
  now destruct (fetch_catch_resolves k e) as [line ->].
Qed.

(** The download of a body, in terms of the pipeline. *)
Lemma download_body (k : string) (target : Target) (body : Readable) :
  get_object env (bucket opts) k = Resolved {| Body := Some body |} ->
  try_catch (download opts env k target) (fetch_catch k) =
  match pipelineAsync body
          (new_TimeoutStream 0 fetch_timeout_ms (timeout_message k))
          (tar_extract env (cwd target)) with
  | Resolved _ =>
      ([Send (GetObjectCommand (bucket opts) k); Silly (FetchedFromR2 k)],
       Resolved true)
  | Rejected e =>
      (Send (GetObjectCommand (bucket opts) k) :: log_of (fetch_catch k e),
       result_of (fetch_catch k e))
  | Pending => ([Send (GetObjectCommand (bucket opts) k)], Pending)
  end.
Proof.
  intros H. unfold download, send. rewrite H. simpl.
  destruct (pipelineAsync _ _ _) as [[] | e | ]; simpl; try reflexivity.
  now destruct (fetch_catch k e).
Qed.

(** The error of the timeout guard is not a not-found error, and is logged
    with its own message. *)
Lemma fetch_catch_timeout (k : string) :
  fetch_catch k (new_Error (timeout_message k)) =
  ([Silly (FetchFailed (timeout_message k))], Resolved false).
Proof. reflexivity. Qed.

End R2Facts.

Section R2Claims.

Import CloudflareR2CacheProvider.


(** C5, amended.  With a maximum size [S] other than 0, a non-empty key, and a
  metadata probe that reports a size above [S], [fetch] returns false; the
  only command it sends is the [HeadObjectCommand], so nothing is
  downloaded. *)
Theorem oversized_object_is_not_downloaded
  (opts : CloudflareR2CacheProviderOptions) (env : Backend)
  (k : string) (target : Target) (S len : N) :
k <> "" ->
maxSize opts = Some S ->
S <> 0%N ->
head_object env (bucket opts) k = Resolved {| ContentLength := Some len |} ->
(S < len)%N ->
result_of (fetch opts env k target) = Resolved false
/\ requests (log_of (fetch opts env k target))
   = [Send (HeadObjectCommand (bucket opts) k)]
/\ filter is_download (log_of (fetch opts env k target)) = [].
Proof.
intros Hk HS HS0 Hhead Hlt.
unfold fetch. rewrite (nonempty_key k Hk), HS.
destruct S as [| m]; [congruence |].
unfold send. rewrite Hhead. simpl.
destruct len as [| len]; [lia |].
apply N.ltb_lt in Hlt. rewrite Hlt. simpl. repeat split.
Qed.

(** C3, amended.  With a maximum size [S] other than 0, a non-empty key, and
  an estimate (the sum of the sizes of the output entries that exist as
  literal paths) above [S], [put] resolves and sends no command at all, so
  nothing is uploaded. *)
Theorem oversized_output_is_not_uploaded
  (opts : CloudflareR2CacheProviderOptions) (env : Backend)
  (k : string) (target : Target) (S total : N) :
k <> "" ->
maxSize opts = Some S ->
S <> 0%N ->
result_of (estimate env (cwd target) (outputGlob_of target) 0%N) = Resolved total ->
(S < total)%N ->
result_of (put opts env k target) = Resolved tt
/\ requests (log_of (put opts env k target)) = []
/\ filter is_upload (log_of (put opts env k target)) = [].
Proof.
intros Hk HS HS0 Hest Hlt.
unfold put. rewrite (nonempty_key k Hk), HS.
destruct S as [| m]; [congruence |].
pose proof (estimate_log env (cwd target) (outputGlob_of target) 0%N) as Hlog.
destruct (estimate env (cwd target) (outputGlob_of target) 0%N) as [l r].
simpl in Hlog, Hest. subst l r. simpl.
apply N.ltb_lt in Hlt. rewrite Hlt. simpl. repeat split.
Qed.

(** C9.  The estimate of [put] is the estimate over the output entries that
  exist as literal paths under the working directory.  When none of them
  does (outputs made of wildcard patterns only), the estimate is 0, the size check does
  not stop [put] whatever the configured maximum, and the upload is sent,
  whatever the files matched by the patterns weigh. *)
Theorem wildcard_outputs_escape_the_size_limit
  (opts : CloudflareR2CacheProviderOptions) (env : Backend)
  (k : string) (target : Target) :
k <> "" ->
(forall g, In g (outputGlob_of target) ->
           fs_existsSync env (path_resolve env (cwd target) g) = false) ->
(forall n,
    estimate env (cwd target) (outputGlob_of target) n =
    estimate env (cwd target)
      (filter (fun g => fs_existsSync env (path_resolve env (cwd target) g))
              (outputGlob_of target)) n)
/\ estimate env (cwd target) (outputGlob_of target) 0%N = ([], Resolved 0%N)
/\ exists rest,
     log_of (put opts env k target) =
     Send (PutObjectCommand (bucket opts) k
             (tar_pack (cwd target) (pack_entries_of (outputGlob_of target)))
             "application/x-tar") :: rest.
Proof.
intros Hk Hnone. split; [| split].
- intros n. apply estimate_filter.
- now apply estimate_nothing_exists.
- unfold put, put_catch, upload, send. rewrite (nonempty_key k Hk).
  destruct (maxSize opts) as [[| m] |]; cbv zeta;
    try rewrite (estimate_nothing_exists env _ _ Hnone); simpl;
    destruct (put_object env (bucket opts) k _); simpl; eauto.
Qed.

(** C7.  No error reaches the caller of [fetch] or [put].  [fetch] never
  rejects; when the store answers the [HeadObjectCommand] or the
  [GetObjectCommand] with an error, whichever error it is, [fetch] returns
  false; the not-found errors are those named NoSuchKey and those with
  HTTP status 404.  [put] never rejects, and when the store answers the
  [PutObjectCommand] with an error, [put] resolves. *)
Theorem backend_errors_never_propagate
  (opts : CloudflareR2CacheProviderOptions) (env : Backend)
  (k : string) (target : Target) (e : JsError) :
(forall e', result_of (fetch opts env k target) <> Rejected e')
/\ (In (Send (HeadObjectCommand (bucket opts) k)) (log_of (fetch opts env k target)) ->
    head_object env (bucket opts) k = Rejected e ->
    result_of (fetch opts env k target) = Resolved false)
/\ (In (Send (GetObjectCommand (bucket opts) k)) (log_of (fetch opts env k target)) ->
    get_object env (bucket opts) k = Rejected e ->
    result_of (fetch opts env k target) = Resolved false)
/\ (is_not_found e = true <->
    name e = "NoSuchKey" \/ httpStatusCode e = Some 404%N)
/\ (forall e', result_of (put opts env k target) <> Rejected e')
/\ (forall body ct,
      In (Send (PutObjectCommand (bucket opts) k body ct))
         (log_of (put opts env k target)) ->
      put_object env (bucket opts) k body = Rejected e ->
      result_of (put opts env k target) = Resolved tt).
Proof.
split; [intros e'; apply fetch_never_rejects |].
split.
{ unfold fetch. destruct (String.eqb k ""); [simpl; tauto |].
  intros Hin Hhead.
  destruct (maxSize opts) as [[| m] |].
  - destruct (download_log opts env k target) as [lines Hl].
    rewrite Hl in Hin. simpl in Hin. destruct Hin as [Hin | Hin]; [discriminate |].
    apply in_map_iff in Hin. destruct Hin as (x & Hx & _). discriminate.
  - unfold send. rewrite Hhead. simpl.
    now destruct (fetch_catch_resolves k e) as [line ->].
  - destruct (download_log opts env k target) as [lines Hl].
    rewrite Hl in Hin. simpl in Hin. destruct Hin as [Hin | Hin]; [discriminate |].
    apply in_map_iff in Hin. destruct Hin as (x & Hx & _). discriminate. }
split.
{ intros Hin Hget.
  destruct (fetch_reaches_download opts env k target Hin) as [pre ->].
  simpl. now apply download_rejected with (e := e). }
split.
{ unfold is_not_found. rewrite orb_true_iff, String.eqb_eq.
  destruct (httpStatusCode e) as [code |].
  - rewrite N.eqb_eq. split; (intros [H | H]; [now left | right; congruence]).
  - split; (intros [H | H]; [now left | discriminate]). }
split; [intros e'; apply put_never_rejects |].
intros body ct Hin Hput.
apply (put_after_upload opts env k target body ct Hin). congruence.
Qed.

(** C10.  The guard is armed for ten minutes.  When the body of the
    downloaded object stays silent for those ten minutes, the timer's
    callback destroys the timeout stream with the timeout error, the
    pipeline rejects with it, and [fetch] catches it: it logs the failure
    and returns false.  When the first chunk arrives before that, the timer
    is cleared and the stream is not destroyed: the pipeline then settles as
    the source and the extraction do, whenever the later chunks and the end
    arrive, so a transfer that ends at any time [t_end] and unpacks is a
    hit. *)
Theorem stalled_download_is_a_miss
    (opts : CloudflareR2CacheProviderOptions) (env : Backend)
    (k : string) (target : Target) (body : Readable) :
  In (Send (GetObjectCommand (bucket opts) k)) (log_of (fetch opts env k target)) ->
  get_object env (bucket opts) k = Resolved {| Body := Some body |} ->
  fetch_timeout_ms = 600000%N
  /\ (silent_for fetch_timeout_ms body = true ->
      destroyed
        (at_finish (timer_first body)
           (feed (timer_first body)
              (new_TimeoutStream 0 fetch_timeout_ms (timeout_message k))
              (arrivals body))
           (finishes body))
      = Some (new_Error (timeout_message k))
      /\ result_of (fetch opts env k target) = Resolved false
      /\ In (Silly (FetchFailed (timeout_message k))) (log_of (fetch opts env k target)))
  /\ (forall t1 c1 rest,
        arrivals body = (t1, c1) :: rest ->
        (t1 < fetch_timeout_ms)%N ->
        timeout (feed (timer_first body)
                   (new_TimeoutStream 0 fetch_timeout_ms (timeout_message k))
                   (arrivals body)) = None
        /\ destroyed (feed (timer_first body)
                        (new_TimeoutStream 0 fetch_timeout_ms (timeout_message k))
                        (arrivals body)) = None
        /\ (forall sink,
              pipelineAsync body
                (new_TimeoutStream 0 fetch_timeout_ms (timeout_message k)) sink =
              settles_as sink (c1 :: map snd rest) (finishes body))
        /\ (forall t_end,
              finishes body = Ends t_end ->
              settles_as (tar_extract env (cwd target)) (c1 :: map snd rest)
                (Ends t_end) = Resolved tt ->
              result_of (fetch opts env k target) = Resolved true)).
Proof.
  intros Hin Hget.
  destruct (fetch_reaches_download opts env k target Hin) as [pre Hfetch].
  rewrite (download_body opts env k target body Hget) in Hfetch.
  split; [reflexivity |]. split.
  - intros Hsilent. split.
    + unfold silent_for in Hsilent.
      apply andb_true_iff in Hsilent. destruct Hsilent as [Harr Hfin].
      destruct (arrivals body) as [| [t c] l]; cbn [feed].
      * destruct (finishes body) as [t | t e | ]; cbn [at_finish].
        -- apply N.ltb_lt in Hfin. now rewrite due_later.
        -- apply N.ltb_lt in Hfin. now rewrite due_later.
        -- reflexivity.
      * cbn [forallb fst] in Harr. apply andb_true_iff in Harr.
        destruct Harr as [Ht _]. apply N.ltb_lt in Ht.
        cbn [destroyed new_TimeoutStream]. rewrite due_later by exact Ht.
        now destruct (finishes body).
    + rewrite Hfetch.
      rewrite (pipeline_times_out body _ _ _ Hsilent), fetch_catch_timeout.
      simpl. split; [reflexivity |].
      apply in_or_app. right. simpl. auto.
  - intros t1 c1 rest Harr Ht1.
    rewrite Harr, (feed_first_chunk _ _ _ t1 c1 rest Ht1). cbn [timeout destroyed].
    split; [reflexivity |]. split; [reflexivity |].
    split; [intros sink; now apply pipeline_after_first_chunk with (t1 := t1) |].
    intros t_end Hend Hsettle. rewrite Hfetch.
    rewrite (pipeline_after_first_chunk body _ _ _ t1 c1 rest Harr Ht1).
    rewrite Hend, Hsettle. reflexivity.
Qed.

End R2Claims.

(** ** The hit tables *)

Section LRUFacts.

Import LRU.

Lemma remove_length (k : string) (l : list entry) :
  length (remove k l) <= length l.
Proof.
  induction l as [| e l IH]; simpl; [lia |].
  destruct (String.eqb k (key e)); simpl; lia.
Qed.

Lemma remove_found_length (k : string) (l : list entry) (e : entry) :
  find k l = Some e -> length (remove k l) < length l.
Proof.
  induction l as [| e' l IH]; simpl; [discriminate |].
  destruct (String.eqb k (key e')).
  - intros _. pose proof (remove_length k l). lia.
  - intros H. apply IH in H. simpl. lia.
Qed.

Lemma removelast_length (l : list entry) :
  length (removelast l) = pred (length l).
Proof.
  induction l as [| e l IH]; [reflexivity |].
  destruct l as [| e' l']; [reflexivity |].
  change (removelast (e :: e' :: l')) with (e :: removelast (e' :: l')).
  simpl length in *. rewrite IH. reflexivity.
Qed.

Lemma removelast_keys (l : list entry) :
  map key (removelast l) = removelast (map key l).
Proof.
  induction l as [| e l IH]; [reflexivity |].
  destruct l as [| e' l']; [reflexivity |].
  change (removelast (e :: e' :: l')) with (e :: removelast (e' :: l')).
  simpl map in *. rewrite IH. reflexivity.
Qed.

Lemma set_max (k : string) (v : bool) (t : N) (c : LRUCache) :
  max (set k v t c) = max c.
Proof.
  unfold set. destruct (find k (items c)); [reflexivity |].
  destruct (max c <=? length (items c)); reflexivity.
Qed.

Lemma get_max (k : string) (t : N) (c : LRUCache) :
  max (snd (get k t c)) = max c.
Proof.
  unfold get. destruct (find k (items c)) as [e |]; [| reflexivity].
  destruct (isStale c e t); reflexivity.
Qed.

(** A write never takes a table of positive capacity over its capacity. *)
Lemma set_size (k : string) (v : bool) (t : N) (c : LRUCache) :
  0 < max c -> size c <= max c -> size (set k v t c) <= max c.
Proof.
  unfold size, set. intros Hpos Hle.
  destruct (find k (items c)) as [e |] eqn:Hfind.
  - simpl. apply remove_found_length in Hfind. lia.
  - destruct (max c <=? length (items c)) eqn:Hfull; simpl.
    + rewrite removelast_length. lia.
    + apply Nat.leb_gt in Hfull. lia.
Qed.

(** A read never adds an entry. *)
Lemma get_size (k : string) (t : N) (c : LRUCache) :
  size (snd (get k t c)) <= size c.
Proof.
  unfold size, get. destruct (find k (items c)) as [e |] eqn:Hfind; [| simpl; lia].
  destruct (isStale c e t); simpl.
  - apply remove_length.
  - apply remove_found_length in Hfind. lia.
Qed.

(** Writing a new key into a full table drops exactly the entry that is
    last in recency order and keeps all the others in place. *)
Lemma set_evicts_least_recent (k : string) (v : bool) (t : N) (c : LRUCache) :
  find k (items c) = None ->
  max c <= size c ->
  keys (set k v t c) = k :: removelast (keys c).
Proof.
  unfold keys, size, set. intros Hnew Hfull. rewrite Hnew.
  apply Nat.leb_le in Hfull. rewrite Hfull. simpl.
  now rewrite removelast_keys.
Qed.

(** The table is kept in recency order: a write puts its key in front, and
    so does a read that finds a live entry. *)
Lemma set_moves_to_front (k : string) (v : bool) (t : N) (c : LRUCache) :
  hd_error (keys (set k v t c)) = Some k.
Proof.
  unfold keys, set. destruct (find k (items c)); [reflexivity |].
  destruct (max c <=? length (items c)); reflexivity.
Qed.

Lemma find_key (k : string) (l : list entry) (e : entry) :
  find k l = Some e -> key e = k.
Proof.
  induction l as [| e' l IH]; simpl; [discriminate |].
  destruct (String.eqb k (key e')) eqn:E; [| exact IH].
  intros H. injection H as <-. symmetry. now apply String.eqb_eq.
Qed.

Lemma get_moves_to_front (k : string) (t : N) (c : LRUCache) (v : bool) :
  fst (get k t c) = Some v -> hd_error (keys (snd (get k t c))) = Some k.
Proof.
  unfold keys, get. destruct (find k (items c)) as [e |] eqn:Hfind; [| discriminate].
  destruct (isStale c e t); [discriminate |]. simpl. intros _.
  now rewrite (find_key k _ e Hfind).
Qed.

(** Reading a key right after writing it gives the value written. *)
Lemma get_set (k : string) (v : bool) (t : N) (c : LRUCache) :
  fst (get k t (set k v t c)) = Some v.
Proof.
  assert (H : exists l, items (set k v t c)
                        = {| key := k; value := v; start := t |} :: l).
  { unfold set. destruct (find k (items c)); [simpl; eauto |].
    destruct (max c <=? length (items c)); simpl; eauto. }
  destruct H as [l Hl]. unfold get. rewrite Hl. simpl.
  rewrite String.eqb_refl. unfold isStale. simpl.
  rewrite N.sub_diag.
  destruct (ttl (set k v t c) <? 0)%N eqn:E; [| reflexivity].
  apply N.ltb_lt in E. lia.
Qed.

End LRUFacts.

(** ** The orchestrator *)

Section OrchestratorFacts.

Import LRU RemoteFallbackCacheProvider.

Context {W : Type}.
Variable now : W -> N.

Lemma made_exact (s s' : @State W) (l : list call) :
  calls s' = calls s ++ l -> made s s' = l.
Proof.
  unfold made. intros ->.
  now rewrite skipn_app, skipn_all, Nat.sub_diag.
Qed.

Variable capacity : nat.
Hypothesis capacity_pos : 0 < capacity.

Lemma keeps_ret {A} (a : A) : keeps_bounded (W := W) capacity (mret a).
Proof. intros s H. exact H. Qed.

Lemma keeps_bind {A B} (m : M A) (f : A -> M B) :
  keeps_bounded (W := W) capacity m ->
  (forall a, keeps_bounded capacity (f a)) ->
  keeps_bounded capacity (mbind m f).
Proof.
  intros Hm Hf s Hs. unfold mbind.
  specialize (Hm s Hs). destruct (m s) as [a s']. now apply Hf.
Qed.

Lemma keeps_call_fetch (t : tier) (p : CacheProvider) (k : string) (target : Target) :
  keeps_bounded (W := W) capacity (call_fetch t p k target).
Proof.
  intros s H. unfold call_fetch.
  now destruct (cp_fetch p k target (world s)).
Qed.

Lemma keeps_call_put (t : tier) (p : CacheProvider) (k : string) (target : Target) :
  keeps_bounded (W := W) capacity (call_put t p k target).
Proof. intros s H. exact H. Qed.

Lemma keeps_localHits_set (k : string) (v : bool) :
  keeps_bounded capacity (localHits_set now k v).
Proof.
  intros s (Hl & Hr & Hsl & Hsr). unfold bounded. simpl.
  rewrite set_max. repeat split; auto.
  rewrite <- Hl. apply set_size; rewrite Hl; auto.
Qed.

Lemma keeps_remoteHits_set (k : string) (v : bool) :
  keeps_bounded capacity (remoteHits_set now k v).
Proof.
  intros s (Hl & Hr & Hsl & Hsr). unfold bounded. simpl.
  rewrite set_max. repeat split; auto.
  rewrite <- Hr. apply set_size; rewrite Hr; auto.
Qed.

Lemma keeps_localHits_get (k : string) :
  keeps_bounded capacity (localHits_get now k).
Proof.
  intros s (Hl & Hr & Hsl & Hsr). unfold bounded, localHits_get.
  pose proof (get_max k (now (world s)) (localHits s)) as Hmax.
  pose proof (get_size k (now (world s)) (localHits s)) as Hsize.
  destruct (get k (now (world s)) (localHits s)) as [v c]. simpl in *.
  repeat split; auto; lia.
Qed.

Lemma keeps_remoteHits_get (k : string) :
  keeps_bounded capacity (remoteHits_get now k).
Proof.
  intros s (Hl & Hr & Hsl & Hsr). unfold bounded, remoteHits_get.
  pose proof (get_max k (now (world s)) (remoteHits s)) as Hmax.
  pose proof (get_size k (now (world s)) (remoteHits s)) as Hsize.
  destruct (get k (now (world s)) (remoteHits s)) as [v c]. simpl in *.
  repeat split; auto; lia.
Qed.

Create HintDb keeps.

#[local] Hint Resolve keeps_ret keeps_call_fetch keeps_call_put keeps_localHits_set
  keeps_remoteHits_set keeps_localHits_get keeps_remoteHits_get : keeps.

Ltac keeps :=
  repeat first
    [ apply keeps_bind; [| intros ?]
    | match goal with
      | |- keeps_bounded _ (match ?x with _ => _ end) => destruct x
      end
    | solve [auto with keeps] ].

Lemma keeps_fetch (opts : RemoteFallbackCacheProviderOptions)
    (k : string) (target : Target) :
  keeps_bounded capacity (fetch now opts k target).
Proof. unfold fetch, lookup_local. keeps. Qed.

Lemma keeps_put (opts : RemoteFallbackCacheProviderOptions)
    (k : string) (target : Target) :
  keeps_bounded capacity (put now opts k target).
Proof. unfold put, isLocalHit, isRemoteHit. keeps. Qed.

Lemma keeps_clear (opts : RemoteFallbackCacheProviderOptions) :
  keeps_bounded (W := W) capacity (clear opts).
Proof.
  unfold clear. apply keeps_bind.
  - intros s (Hl & Hr & _ & _). unfold bounded, size. simpl.
    repeat split; auto; lia.
  - intros _. destruct (localCacheProvider opts); [| apply keeps_ret].
    intros s H. exact H.
Qed.

Lemma keeps_purge (opts : RemoteFallbackCacheProviderOptions) (d : N) :
  keeps_bounded (W := W) capacity (purge opts d).
Proof.
  unfold purge. destruct (localCacheProvider opts); [| apply keeps_ret].
  intros s H. exact H.
Qed.

Lemma step_bounded (o : op) (s : State) :
  bounded capacity s -> bounded capacity (step now o s).
Proof.
  destruct o; simpl.
  - apply keeps_fetch.
  - apply keeps_put.
  - apply keeps_clear.
  - apply keeps_purge.
  - trivial.
Qed.

Lemma run_bounded (ops : list op) :
  forall s, bounded capacity s -> bounded capacity (run now ops s).
Proof.
  induction ops as [| o ops IH]; intros s H; simpl; [exact H |].
  apply IH. now apply step_bounded.
Qed.

Lemma start_bounded (ttl : N) (w : W) :
  bounded capacity (start_with capacity ttl w).
Proof. unfold bounded, size. simpl. repeat split; apply Nat.le_0_l. Qed.

End OrchestratorFacts.

Section OrchestratorClaims.

Import LRU RemoteFallbackCacheProvider.

Context {W : Type}.
Variable now : W -> N.

(** C1.  When a local provider is configured and its [fetch] returns true
  for the key, the orchestrator's [fetch] returns true, and the only call
  it makes on a provider is that local [fetch]: the remote provider's
  [fetch] is not invoked. *)
Theorem local_hit_skips_remote
  (opts : RemoteFallbackCacheProviderOptions) (lp : CacheProvider)
  (k : string) (target : Target) (s : @State W) :
localCacheProvider opts = Some lp ->
fst (cp_fetch lp k target (world s)) = true ->
fst (fetch now opts k target s) = true
/\ made s (snd (fetch now opts k target s)) = [Fetch Local k target]
/\ filter is_remote_fetch (made s (snd (fetch now opts k target s))) = [].
Proof.
intros Hlp Hhit.
assert (H : fst (fetch now opts k target s) = true
            /\ made s (snd (fetch now opts k target s)) = [Fetch Local k target]).
{ unfold fetch, lookup_local, mbind, call_fetch, localHits_set, localHits_get.
  rewrite Hlp.
  destruct (cp_fetch lp k target (world s)) as [hit w]. simpl in Hhit. subst hit.
  cbn [world localHits remoteHits calls].
  pose proof (get_set k true (now w) (localHits s)) as Hget.
  destruct (get k (now w) (set k true (now w) (localHits s))) as [v c].
  simpl in Hget. subst v. simpl.
  split; [reflexivity |]. now apply made_exact. }
destruct H as [Hres Hmade]. rewrite Hmade. repeat split; auto.
Qed.

(** C2.  When the local hit table reads falsy for the key after the local
  lookup, a remote provider is configured and its [fetch] returns true,
  the orchestrator's [fetch] returns true; after the local lookup it calls
  the remote [fetch] and then, if a local provider is configured, the
  local [put], and the whole call contains exactly one local [put]. *)
Theorem remote_hit_seeds_local
  (opts : RemoteFallbackCacheProviderOptions) (rp : CacheProvider)
  (k : string) (target : Target) (s : @State W) :
or_false (fst (lookup_local now opts k target s)) = false ->
remoteCacheProvider opts = Some rp ->
fst (cp_fetch rp k target (world (snd (lookup_local now opts k target s)))) = true ->
fst (fetch now opts k target s) = true
/\ made (snd (lookup_local now opts k target s)) (snd (fetch now opts k target s))
   = Fetch Remote k target
     :: match localCacheProvider opts with
        | Some _ => [Put Local k target]
        | None => []
        end
/\ (localCacheProvider opts <> None ->
    length (filter is_local_put (made s (snd (fetch now opts k target s)))) = 1).
Proof.
intros Hmiss Hrp Hhit.
assert (Hcalls : exists pre,
           calls (snd (lookup_local now opts k target s)) = calls s ++ pre
           /\ filter is_local_put pre = []).
{ unfold lookup_local, mbind, call_fetch, localHits_set, localHits_get.
  destruct (localCacheProvider opts) as [lp |].
  - destruct (cp_fetch lp k target (world s)) as [hit w].
    cbn [world localHits remoteHits calls].
    destruct (get k (now w) _) as [v c]. simpl.
    exists [Fetch Local k target]. now split.
  - unfold mret. destruct (get k (now (world s)) _) as [v c]. simpl.
    exists []. split; [now rewrite app_nil_r | reflexivity]. }
destruct Hcalls as (pre & Hpre & Hnoput).
destruct (lookup_local now opts k target s) as [v s1] eqn:Hlook.
simpl in Hmiss, Hhit, Hpre.
destruct (cp_fetch rp k target (world s1)) as [hit w] eqn:Hremote.
simpl in Hhit. subst hit.
assert (Hfetch : fetch now opts k target s =
  (true,
   {| localHits := localHits s1;
      remoteHits := set k true (now w) (remoteHits s1);
      world := match localCacheProvider opts with
               | Some lp => cp_put lp k target w
               | None => w
               end;
      calls := calls s1 ++ Fetch Remote k target
               :: match localCacheProvider opts with
                  | Some _ => [Put Local k target]
                  | None => []
                  end |})).
{ unfold fetch, mbind. rewrite Hlook, Hmiss, Hrp.
  unfold call_fetch. rewrite Hremote.
  unfold remoteHits_set, call_put, mret.
  destruct (localCacheProvider opts); simpl; [| reflexivity].
  now rewrite <- app_assoc. }
rewrite Hfetch. cbn [fst snd].
split; [reflexivity |]. split.
- now apply made_exact.
- intros Hlocal.
  destruct (localCacheProvider opts) as [lp |]; [| congruence].
  rewrite (made_exact s _ (pre ++ [Fetch Remote k target; Put Local k target])).
  + rewrite filter_app, Hnoput. reflexivity.
  + simpl. rewrite Hpre, <- app_assoc. reflexivity.
Qed.

(** C4.  Unless [writeRemoteCache] is true, the orchestrator's [put] makes no
  call to the remote provider's [put], whatever the providers configured
  and whatever the hit tables hold. *)
Theorem no_remote_write_unless_enabled
  (opts : RemoteFallbackCacheProviderOptions)
  (k : string) (target : Target) (s : @State W) :
writeRemoteCache opts <> Some true ->
filter is_remote_put (made s (snd (put now opts k target s))) = [].
Proof.
intros Hflag.
assert (H : exists l, calls (snd (put now opts k target s)) = calls s ++ l
                      /\ filter is_remote_put l = []).
{ unfold put, isLocalHit, isRemoteHit, mbind, mret, localHits_get, remoteHits_get.
  destruct (get k (now (world s)) (localHits s)) as [v c].
  destruct (negb (or_false v)), (localCacheProvider opts) as [lp |];
    unfold call_put; cbn [world localHits remoteHits calls];
    destruct (get k _ (remoteHits s)) as [v' c'];
    destruct (negb (or_false v')), (remoteCacheProvider opts) as [rp |],
             (writeRemoteCache opts) as [[|] |];
    try congruence; simpl;
    solve [ exists [Put Local k target]; split; reflexivity
          | exists []; split; [now rewrite app_nil_r | reflexivity] ]. }
destruct H as (l & Hl & Hnone).
now rewrite (made_exact s _ l Hl).
Qed.

End OrchestratorClaims.


(** ** The claims at concrete inputs *)

Section Instances.

Import LRU CloudflareR2CacheProvider Examples.

(** C5 as worded fails for a maximum size of 0: the store holds an object of
  5 bytes, more than the maximum, and [fetch] sends no probe, downloads the
  object and returns true. *)
Lemma zero_maximum_still_downloads :
fetch (options (Some 0%N)) (backend 5 prompt_body []) testHash
      (target ["lib/**/*"; "dist/**/*"])
= ([Send (GetObjectCommand "test-bucket" testHash); Silly (FetchedFromR2 testHash)],
   Resolved true)
/\ ~ AsStated.fetch_size_limit.
Proof.
split; [reflexivity |].
intros H.
destruct (H (options (Some 0%N)) (backend 5 prompt_body []) testHash
            (target ["lib/**/*"; "dist/**/*"]) 0%N 5%N) as [Hr _];
  try reflexivity; discriminate.
Qed.

Lemma oversized_object_witness :
result_of (fetch (options (Some MB)) (backend (2 * MB) prompt_body []) testHash
                 (target ["lib/**/*"; "dist/**/*"])) = Resolved false
/\ requests (log_of (fetch (options (Some MB)) (backend (2 * MB) prompt_body [])
                           testHash (target ["lib/**/*"; "dist/**/*"])))
   = [Send (HeadObjectCommand "test-bucket" testHash)]
/\ filter is_download
     (log_of (fetch (options (Some MB)) (backend (2 * MB) prompt_body [])
                    testHash (target ["lib/**/*"; "dist/**/*"]))) = [].
Proof.
apply (oversized_object_is_not_downloaded
         (options (Some MB)) (backend (2 * MB) prompt_body []) testHash
         (target ["lib/**/*"; "dist/**/*"]) MB (2 * MB)%N).
- discriminate.
- reflexivity.
- discriminate.
- reflexivity.
- reflexivity.
Defined.

(** C3 as worded fails for a maximum size of 0: the two output files weigh
  1228800 bytes, more than the maximum, and [put] uploads them. *)
Lemma zero_maximum_still_uploads :
put (options (Some 0%N)) (backend 0 prompt_body two_large_files) testHash
    (target ["lib/file1.js"; "dist/file2.js"])
= ([Send (PutObjectCommand "test-bucket" testHash
            (tar_pack tempDir (Some ["lib/file1.js"; "dist/file2.js"]))
            "application/x-tar");
    Silly (UploadedToR2 testHash)],
   Resolved tt)
/\ ~ AsStated.put_size_limit.
Proof.
split; [reflexivity |].
intros H.
destruct (H (options (Some 0%N)) (backend 0 prompt_body two_large_files) testHash
            (target ["lib/file1.js"; "dist/file2.js"]) 0%N 1228800%N) as [_ Hu];
  try reflexivity; discriminate.
Qed.

Lemma oversized_output_witness :
result_of (put (options (Some MB)) (backend 0 prompt_body two_large_files) testHash
               (target ["lib/file1.js"; "dist/file2.js"])) = Resolved tt
/\ requests (log_of (put (options (Some MB)) (backend 0 prompt_body two_large_files)
                         testHash (target ["lib/file1.js"; "dist/file2.js"]))) = []
/\ filter is_upload
     (log_of (put (options (Some MB)) (backend 0 prompt_body two_large_files)
                  testHash (target ["lib/file1.js"; "dist/file2.js"]))) = [].
Proof.
apply (oversized_output_is_not_uploaded
         (options (Some MB)) (backend 0 prompt_body two_large_files) testHash
         (target ["lib/file1.js"; "dist/file2.js"]) MB 1228800%N).
- discriminate.
- reflexivity.
- discriminate.
- reflexivity.
- reflexivity.
Defined.

Lemma wildcard_outputs_witness :
estimate (backend 0 prompt_body [("/tmp/lage-r2-test/lib/index.js", 5 * MB)%N])
         tempDir ["lib/**/*"; "dist/**/*"] 0%N = ([], Resolved 0%N)
/\ exists rest,
     log_of (put (options (Some MB))
                 (backend 0 prompt_body [("/tmp/lage-r2-test/lib/index.js", 5 * MB)%N])
                 testHash (target ["lib/**/*"; "dist/**/*"]))
     = Send (PutObjectCommand "test-bucket" testHash
               (tar_pack tempDir (Some ["lib/**/*"; "dist/**/*"]))
               "application/x-tar") :: rest.
Proof.
destruct (wildcard_outputs_escape_the_size_limit
            (options (Some MB))
            (backend 0 prompt_body [("/tmp/lage-r2-test/lib/index.js", 5 * MB)%N])
            testHash (target ["lib/**/*"; "dist/**/*"]))
  as (_ & Hzero & Hsent).
- discriminate.
- intros g [<- | [<- | []]]; reflexivity.
- split; [exact Hzero | exact Hsent].
Defined.

Lemma backend_errors_witness :
result_of (fetch (options None) (failing_store access_denied) testHash
                 (target ["lib/**/*"; "dist/**/*"])) = Resolved false
/\ result_of (fetch (options (Some MB)) (failing_store access_denied) testHash
                    (target ["lib/**/*"; "dist/**/*"])) = Resolved false
/\ result_of (put (options (Some MB)) (failing_store access_denied) testHash
                  (target ["lib/**/*"; "dist/**/*"])) = Resolved tt.
Proof.
split; [| split].
- destruct (backend_errors_never_propagate
              (options None) (failing_store access_denied) testHash
              (target ["lib/**/*"; "dist/**/*"]) access_denied)
    as (_ & _ & Hget & _).
  apply Hget; [left; reflexivity | reflexivity].
- destruct (backend_errors_never_propagate
              (options (Some MB)) (failing_store access_denied) testHash
              (target ["lib/**/*"; "dist/**/*"]) access_denied)
    as (_ & Hhead & _).
  apply Hhead; [left; reflexivity | reflexivity].
- destruct (backend_errors_never_propagate
              (options (Some MB)) (failing_store access_denied) testHash
              (target ["lib/**/*"; "dist/**/*"]) access_denied)
    as (_ & _ & _ & _ & _ & Hput).
  apply (Hput (tar_pack tempDir (Some ["lib/**/*"; "dist/**/*"])) "application/x-tar");
    [left; reflexivity | reflexivity].
Defined.

Lemma stalled_download_witness :
  result_of (fetch (options None) (backend 5 stalled_body []) testHash
                   (target ["lib/**/*"; "dist/**/*"])) = Resolved false
  /\ result_of (fetch (options None) (backend 5 slow_body []) testHash
                      (target ["lib/**/*"; "dist/**/*"])) = Resolved true.
Proof.
  split.
  - destruct (stalled_download_is_a_miss
                (options None) (backend 5 stalled_body []) testHash
                (target ["lib/**/*"; "dist/**/*"]) stalled_body)
      as (_ & Hstall & _).
    + left; reflexivity.
    + reflexivity.
    + destruct (Hstall eq_refl) as (_ & Hmiss & _). exact Hmiss.
  - destruct (stalled_download_is_a_miss
                (options None) (backend 5 slow_body []) testHash
                (target ["lib/**/*"; "dist/**/*"]) slow_body)
      as (_ & _ & Hflow).
    + left; reflexivity.
    + reflexivity.
    + destruct (Hflow 1000%N "tar-1" [(7200000%N, "tar-2")] eq_refl eq_refl)
        as (_ & _ & _ & Hhit).
      apply (Hhit 10800000%N); reflexivity.
Defined.

End Instances.

Section OrchestratorInstances.

Import LRU RemoteFallbackCacheProvider Examples.

Lemma local_hit_witness :
fst (RemoteFallbackCacheProvider.fetch clock
       (tiers (Some (answering true)) (Some (answering true)) None)
       "k1" (target ["lib/**/*"]) (start 0%N)) = true
/\ made (start 0%N)
        (snd (RemoteFallbackCacheProvider.fetch clock
                (tiers (Some (answering true)) (Some (answering true)) None)
                "k1" (target ["lib/**/*"]) (start 0%N)))
   = [Fetch Local "k1" (target ["lib/**/*"])]
/\ filter is_remote_fetch
     (made (start 0%N)
           (snd (RemoteFallbackCacheProvider.fetch clock
                   (tiers (Some (answering true)) (Some (answering true)) None)
                   "k1" (target ["lib/**/*"]) (start 0%N)))) = [].
Proof.
apply (local_hit_skips_remote clock
         (tiers (Some (answering true)) (Some (answering true)) None)
         (answering true) "k1" (target ["lib/**/*"]) (start 0%N));
  reflexivity.
Defined.

Lemma remote_hit_witness :
fst (RemoteFallbackCacheProvider.fetch clock
       (tiers (Some (answering false)) (Some (answering true)) None)
       "k1" (target ["lib/**/*"]) (start 0%N)) = true
/\ length (filter is_local_put
             (made (start 0%N)
                   (snd (RemoteFallbackCacheProvider.fetch clock
                           (tiers (Some (answering false)) (Some (answering true)) None)
                           "k1" (target ["lib/**/*"]) (start 0%N))))) = 1.
Proof.
destruct (remote_hit_seeds_local clock
            (tiers (Some (answering false)) (Some (answering true)) None)
            (answering true) "k1" (target ["lib/**/*"]) (start 0%N))
  as (Hres & _ & Honce); try reflexivity.
split; [exact Hres | apply Honce; discriminate].
Defined.

Lemma no_remote_write_witness :
filter is_remote_put
  (made (start 0%N)
        (snd (RemoteFallbackCacheProvider.put clock
                (tiers (Some (answering false)) (Some (answering false)) (Some false))
                "k1" (target ["lib/**/*"]) (start 0%N)))) = [].
Proof.
apply (no_remote_write_unless_enabled clock
         (tiers (Some (answering false)) (Some (answering false)) (Some false))
         "k1" (target ["lib/**/*"]) (start 0%N)).
discriminate.
Defined.


End OrchestratorInstances.

(** * Further properties *)

(** ** The Cloudflare R2 provider *)

Section R2Further.

Import CloudflareR2CacheProvider Further.

Variable opts : CloudflareR2CacheProviderOptions.
Variable env : Backend.

Lemma requests_silly (lines : list LogLine) : requests (map Silly lines) = [].
Proof. induction lines; simpl; auto. Qed.

Lemma download_requests (k : string) (target : Target) :
  requests (log_of (try_catch (download opts env k target) (fetch_catch k)))
  = [Send (GetObjectCommand (bucket opts) k)].
Proof.
  destruct (download_log opts env k target) as [lines ->].
  simpl. unfold requests in *. now rewrite requests_silly.
Qed.

(** The four ways [fetch] can go: the empty key; the download, alone or
    after a probe; a probe that settles the call; a probe that never
    answers. *)
Lemma fetch_cases (k : string) (target : Target) :
  (k = "" /\ fetch opts env k target = ([], Resolved false))
  \/ (k <> "" /\ exists pre,
        (pre = [] \/ pre = [Send (HeadObjectCommand (bucket opts) k)])
        /\ fetch opts env k target =
           (pre ++ log_of (try_catch (download opts env k target) (fetch_catch k)),
            result_of (try_catch (download opts env k target) (fetch_catch k))))
  \/ (k <> "" /\ exists line,
        fetch opts env k target =
        ([Send (HeadObjectCommand (bucket opts) k); Silly line], Resolved false))
  \/ (k <> "" /\ fetch opts env k target =
                 ([Send (HeadObjectCommand (bucket opts) k)], Pending)).
Proof.
  unfold fetch. destruct (String.eqb k "") eqn:Hk.
  { left. apply String.eqb_eq in Hk. auto. }
  apply String.eqb_neq in Hk. right.
  assert (Hskip :
    k <> "" /\ exists pre,
      (pre = [] \/ pre = [Send (HeadObjectCommand (bucket opts) k)])
      /\ try_catch (download opts env k target) (fetch_catch k) =
         (pre ++ log_of (try_catch (download opts env k target) (fetch_catch k)),
          result_of (try_catch (download opts env k target) (fetch_catch k)))).
  { split; [exact Hk |]. exists []. split; [now left |].
    simpl. now destruct (try_catch _ _). }
  destruct (maxSize opts) as [[| m] |]; try (left; exact Hskip).
  unfold send.
  destruct (head_object env (bucket opts) k) as [[cl] | e | ].
  - change (bind (emit (Send (HeadObjectCommand (bucket opts) k)))
              (fun _ => await (Resolved {| ContentLength := cl |})))
      with ([Send (HeadObjectCommand (bucket opts) k)],
            Resolved {| ContentLength := cl |}).
    rewrite try_catch_bind_resolved. cbn [ContentLength].
    assert (Hdown :
      k <> "" /\ exists pre,
        (pre = [] \/ pre = [Send (HeadObjectCommand (bucket opts) k)])
        /\ ([Send (HeadObjectCommand (bucket opts) k)] ++
            log_of (try_catch (download opts env k target) (fetch_catch k)),
            result_of (try_catch (download opts env k target) (fetch_catch k))) =
           (pre ++ log_of (try_catch (download opts env k target) (fetch_catch k)),
            result_of (try_catch (download opts env k target) (fetch_catch k)))).
    { split; [exact Hk |]. exists [Send (HeadObjectCommand (bucket opts) k)]. auto. }
    destruct cl as [[| len] |]; try (left; exact Hdown).
    destruct (N.pos m <? N.pos len)%N; [| left; exact Hdown].
    right. left. split; [exact Hk |]. simpl. eauto.
  - right. left. split; [exact Hk |]. simpl.
    destruct (fetch_catch_resolves k e) as [line ->]. simpl. eauto.
  - right. right. split; [exact Hk |]. reflexivity.
Qed.

Lemma download_hit (k : string) (target : Target) :
  result_of (try_catch (download opts env k target) (fetch_catch k)) = Resolved true ->
  exists body,
    get_object env (bucket opts) k = Resolved {| Body := Some body |}
    /\ pipelineAsync body
         (new_TimeoutStream 0 fetch_timeout_ms (timeout_message k))
         (tar_extract env (cwd target)) = Resolved tt.
Proof.
  unfold download, send.
  destruct (get_object env (bucket opts) k) as [[[body |]] | e | ]; simpl.
  - destruct (pipelineAsync _ _ _) as [[] | e | ] eqn:Hp; simpl.
    + intros _. exists body. auto.
    + destruct (fetch_catch_resolves k e) as [line ->]. discriminate.
    + discriminate.
  - discriminate.
  - destruct (fetch_catch_resolves k e) as [line ->]. discriminate.
  - discriminate.
Qed.

End R2Further.

Section R2FurtherClaims.

Import CloudflareR2CacheProvider Further.

(** X1.  [fetch] reports a hit only after a real download: the key is not
    empty, the [GetObjectCommand] was sent and answered with a body, and the
    pipeline through the timeout guard into the extraction resolved. *)
Theorem fetch_hit_means_extracted
    (opts : CloudflareR2CacheProviderOptions) (env : Backend)
    (k : string) (target : Target) :
  result_of (fetch opts env k target) = Resolved true ->
  k <> ""
  /\ In (Send (GetObjectCommand (bucket opts) k)) (log_of (fetch opts env k target))
  /\ exists body,
       get_object env (bucket opts) k = Resolved {| Body := Some body |}
       /\ pipelineAsync body
            (new_TimeoutStream 0 fetch_timeout_ms (timeout_message k))
            (tar_extract env (cwd target)) = Resolved tt.
Proof.
  intros Hhit.
  destruct (fetch_cases opts env k target)
    as [[_ H] | [(Hk & pre & _ & H) | [(_ & line & H) | [_ H]]]];
    rewrite H in Hhit; try discriminate.
  split; [exact Hk |]. split.
  - rewrite H. simpl. apply in_or_app. right.
    destruct (download_log opts env k target) as [lines ->]. now left.
  - now apply download_hit.
Qed.

(** X2.  An answer to the [GetObjectCommand] that carries no body is a miss:
    [fetch] returns false and logs the failure "No body in R2 response". *)
Theorem missing_body_is_a_miss
    (opts : CloudflareR2CacheProviderOptions) (env : Backend)
    (k : string) (target : Target) :
  In (Send (GetObjectCommand (bucket opts) k)) (log_of (fetch opts env k target)) ->
  get_object env (bucket opts) k = Resolved {| Body := None |} ->
  result_of (fetch opts env k target) = Resolved false
  /\ In (Silly (FetchFailed "No body in R2 response")) (log_of (fetch opts env k target)).
Proof.
  intros Hin Hget.
  destruct (fetch_reaches_download opts env k target Hin) as [pre ->].
  unfold download, send. rewrite Hget. simpl.
  split; [reflexivity |]. apply in_or_app. right. simpl. auto.
Qed.

(** X3.  When the pipeline of a download fails, whatever fails in it (the
    source, the timeout guard or the extraction), [fetch] returns false; in
    particular an archive that arrives in time and does not unpack is a
    miss. *)
Theorem failed_pipeline_is_a_miss
    (opts : CloudflareR2CacheProviderOptions) (env : Backend)
    (k : string) (target : Target) (body : Readable) :
  In (Send (GetObjectCommand (bucket opts) k)) (log_of (fetch opts env k target)) ->
  get_object env (bucket opts) k = Resolved {| Body := Some body |} ->
  (forall e,
      pipelineAsync body
        (new_TimeoutStream 0 fetch_timeout_ms (timeout_message k))
        (tar_extract env (cwd target)) = Rejected e ->
      result_of (fetch opts env k target) = Resolved false)
  /\ (forall t1 c1 rest t_end e,
        arrivals body = (t1, c1) :: rest ->
        (t1 < fetch_timeout_ms)%N ->
        finishes body = Ends t_end ->
        tar_extract env (cwd target) (c1 :: map snd rest) = Rejected e ->
        result_of (fetch opts env k target) = Resolved false)
  /\ (forall t1 c1 rest t_fail e,
        arrivals body = (t1, c1) :: rest ->
        (t1 < fetch_timeout_ms)%N ->
        finishes body = Fails t_fail e ->
        result_of (fetch opts env k target) = Resolved false).
Proof.
  intros Hin Hget.
  destruct (fetch_reaches_download opts env k target Hin) as [pre Hfetch].
  rewrite (download_body opts env k target body Hget) in Hfetch.
  assert (Hrej : forall e,
    pipelineAsync body
      (new_TimeoutStream 0 fetch_timeout_ms (timeout_message k))
      (tar_extract env (cwd target)) = Rejected e ->
    result_of (fetch opts env k target) = Resolved false).
  { intros e Hp. rewrite Hfetch, Hp. simpl.
    now destruct (fetch_catch_resolves k e) as [line ->]. }
  split; [exact Hrej |]. split.
  - intros t1 c1 rest t_end e Harr Ht1 Hend Hextract.
    destruct (settles_rejected (tar_extract env (cwd target)) c1 (map snd rest)
                (Ends t_end)) as [e' He']; [eauto |].
    apply (Hrej e').
    rewrite (pipeline_after_first_chunk body _ _ _ t1 c1 rest Harr Ht1).
    now rewrite Hend.
  - intros t1 c1 rest t_fail e Harr Ht1 Hfail.
    destruct (settles_rejected (tar_extract env (cwd target)) c1 (map snd rest)
                (Fails t_fail e)) as [e' He']; [exact I |].
    apply (Hrej e').
    rewrite (pipeline_after_first_chunk body _ _ _ t1 c1 rest Harr Ht1).
    now rewrite Hfail.
Qed.

(** X4.  [fetch] only reads: with the empty key it sends nothing; with a
    truthy [maxSize] it sends the probe first and at most the download
    after it; otherwise it sends the download alone.  Every command is
    addressed to the configured bucket under the key, and none is an
    upload. *)
Theorem fetch_sends_probe_then_download
    (opts : CloudflareR2CacheProviderOptions) (env : Backend)
    (k : string) (target : Target) :
  (k = "" -> log_of (fetch opts env k target) = [])
  /\ (k <> "" ->
      match maxSize opts with
      | Some (Npos _) =>
          requests (log_of (fetch opts env k target))
          = [Send (HeadObjectCommand (bucket opts) k)]
          \/ requests (log_of (fetch opts env k target))
             = [Send (HeadObjectCommand (bucket opts) k);
                Send (GetObjectCommand (bucket opts) k)]
      | _ =>
          requests (log_of (fetch opts env k target))
          = [Send (GetObjectCommand (bucket opts) k)]
      end)
  /\ filter is_upload (log_of (fetch opts env k target)) = [].
Proof.
  assert (Hup : forall l, requests l = [] \/
                          requests l = [Send (HeadObjectCommand (bucket opts) k)] \/
                          requests l = [Send (GetObjectCommand (bucket opts) k)] \/
                          requests l = [Send (HeadObjectCommand (bucket opts) k);
                                        Send (GetObjectCommand (bucket opts) k)] ->
                          filter is_upload l = []).
  { intros l H. assert (Hr : filter is_upload (requests l) = []).
    { destruct H as [-> | [-> | [-> | ->]]]; reflexivity. }
    clear H. unfold requests in Hr.
    induction l as [| [c | line] l IH]; simpl in *; auto.
    destruct c; simpl in *; auto. discriminate. }
  pose proof (download_requests opts env k target) as Hd.
  split; [intros ->; reflexivity |]. split.
  - intros Hk. unfold fetch. rewrite (nonempty_key k Hk).
    destruct (maxSize opts) as [[| m] |]; try exact Hd.
    unfold send.
    destruct (head_object env (bucket opts) k) as [[cl] | e | ].
    + change (bind (emit (Send (HeadObjectCommand (bucket opts) k)))
                (fun _ => await (Resolved {| ContentLength := cl |})))
        with ([Send (HeadObjectCommand (bucket opts) k)],
              Resolved {| ContentLength := cl |}).
      rewrite try_catch_bind_resolved. cbn [ContentLength].
      assert (Hboth :
        requests (log_of
          ([Send (HeadObjectCommand (bucket opts) k)] ++
           log_of (try_catch (download opts env k target) (fetch_catch k)),
           result_of (try_catch (download opts env k target) (fetch_catch k))))
        = [Send (HeadObjectCommand (bucket opts) k);
           Send (GetObjectCommand (bucket opts) k)]).
      { simpl. unfold requests in *. now rewrite Hd. }
      destruct cl as [[| len] |]; try (right; exact Hboth).
      destruct (N.pos m <? N.pos len)%N; [now left | right; exact Hboth].
    + left. simpl. now destruct (fetch_catch_resolves k e) as [line ->].
    + now left.
  - apply Hup.
    destruct (fetch_cases opts env k target)
      as [[_ H] | [(Hk & pre & Hpre & H) | [(_ & line & H) | [_ H]]]];
      rewrite H; simpl; auto.
    unfold requests in *. rewrite filter_app, Hd.
    destruct Hpre as [-> | ->]; simpl; auto.
Qed.

End R2FurtherClaims.

Section R2PutFurther.

Import CloudflareR2CacheProvider Further.

Variable opts : CloudflareR2CacheProviderOptions.
Variable env : Backend.

(** The size loop over a list whose first part stats without failure. *)
Lemma estimate_app (cwd : string) (pre rest : list string) :
  forall n,
    stats_resolve env cwd pre = true ->
    estimate env cwd (pre ++ rest) n =
    estimate env cwd rest (n + literal_total env cwd pre)%N.
Proof.
  induction pre as [| g pre IH]; intros n H; simpl.
  - now rewrite N.add_0_r.
  - simpl in H. apply andb_true_iff in H. destruct H as [Hg Hpre].
    unfold stat_size.
    destruct (fs_existsSync env (path_resolve env cwd g)).
    + destruct (fs_stat env (path_resolve env cwd g)) as [st | e | ];
        try discriminate.
      simpl. rewrite (IH _ Hpre), <- N.add_assoc.
      now destruct (estimate env cwd rest _).
    + rewrite (IH _ Hpre). now rewrite N.add_0_l.
Qed.

(** The upload, under the [catch] block of [put]: one command, then one log
    line unless the store never answers. *)
Lemma upload_requests (k : string) (target : Target) :
  requests (log_of (try_catch (upload opts env k target (outputGlob_of target)) put_catch))
  = [Send (PutObjectCommand (bucket opts) k
             (tar_pack (cwd target) (pack_entries_of (outputGlob_of target)))
             "application/x-tar")].
Proof.
  unfold upload, send, put_catch. simpl.
  destruct (put_object env (bucket opts) k _); reflexivity.
Qed.

End R2PutFurther.

Section R2PutFurtherClaims.

Import CloudflareR2CacheProvider Further.

(** X5.  [put] only writes, and at most once: the commands it sends are
    none, or the single [PutObjectCommand] for the configured bucket and the
    key, with content type application/x-tar and the archive of the target's
    working directory.  With a non-empty key and a falsy [maxSize] that
    command is always sent.  The archive has no entry list exactly when the
    outputs are missing or are the single pattern "**/*". *)
Theorem put_sends_one_upload_at_most
    (opts : CloudflareR2CacheProviderOptions) (env : Backend)
    (k : string) (target : Target) :
  (requests (log_of (put opts env k target)) = []
   \/ requests (log_of (put opts env k target))
      = [Send (PutObjectCommand (bucket opts) k
                 (tar_pack (cwd target) (pack_entries_of (outputGlob_of target)))
                 "application/x-tar")])
  /\ (k <> "" ->
      match maxSize opts with Some (Npos _) => False | _ => True end ->
      requests (log_of (put opts env k target))
      = [Send (PutObjectCommand (bucket opts) k
                 (tar_pack (cwd target) (pack_entries_of (outputGlob_of target)))
                 "application/x-tar")])
  /\ (pack_entries_of (outputGlob_of target) = None <->
      outputs target = None \/ outputs target = Some ["**/*"]).
Proof.
  pose proof (upload_requests opts env k target) as Hup.
  split; [| split].
  - unfold put. destruct (String.eqb k ""); [now left |].
    destruct (maxSize opts) as [[| m] |]; cbv zeta; try (right; exact Hup).
    pose proof (estimate_log env (cwd target) (outputGlob_of target) 0%N) as Hlog.
    destruct (estimate env (cwd target) (outputGlob_of target) 0%N)
      as [l [n | e | ]]; simpl in Hlog; subst l.
    + rewrite try_catch_bind_resolved.
      destruct (N.pos m <? n)%N; [now left | right; exact Hup].
    + now left.
    + now left.
  - intros Hk Hmax. unfold put. rewrite (nonempty_key k Hk).
    destruct (maxSize opts) as [[| m] |]; [exact Hup | contradiction | exact Hup].
  - unfold outputGlob_of, pack_entries_of.
    destruct (outputs target) as [[| g [| g' l]] |]; simpl.
    + split; [discriminate | intros [H | H]; discriminate].
    + destruct (String.eqb g "**/*") eqn:E.
      * apply String.eqb_eq in E. subst g. split; auto.
      * apply String.eqb_neq in E.
        split; [discriminate | intros [H | H]; congruence].
    + split; [discriminate | intros [H | H]; discriminate].
    + split; auto.
Qed.

(** X6.  The download limit is inclusive.  With a maximum [S] other than 0
    and a probe that reports no size, or a size of at most [S] (equal to [S]
    included), [fetch] goes on to the download: it sends the probe, then the
    [GetObjectCommand], and settles as the download does. *)
Theorem object_within_limit_is_downloaded
    (opts : CloudflareR2CacheProviderOptions) (env : Backend)
    (k : string) (target : Target) (S : N) (cl : option N) :
  k <> "" ->
  maxSize opts = Some S ->
  S <> 0%N ->
  head_object env (bucket opts) k = Resolved {| ContentLength := cl |} ->
  (forall len, cl = Some len -> (len <= S)%N) ->
  fetch opts env k target =
  (Send (HeadObjectCommand (bucket opts) k)
     :: log_of (try_catch (download opts env k target) (fetch_catch k)),
   result_of (try_catch (download opts env k target) (fetch_catch k)))
  /\ requests (log_of (fetch opts env k target))
     = [Send (HeadObjectCommand (bucket opts) k);
        Send (GetObjectCommand (bucket opts) k)].
Proof.
  intros Hk HS HS0 Hhead Hle.
  assert (H : fetch opts env k target =
    (Send (HeadObjectCommand (bucket opts) k)
       :: log_of (try_catch (download opts env k target) (fetch_catch k)),
     result_of (try_catch (download opts env k target) (fetch_catch k)))).
  { unfold fetch. rewrite (nonempty_key k Hk), HS.
    destruct S as [| m]; [congruence |].
    unfold send. rewrite Hhead.
    change (bind (emit (Send (HeadObjectCommand (bucket opts) k)))
              (fun _ => await (Resolved {| ContentLength := cl |})))
      with ([Send (HeadObjectCommand (bucket opts) k)],
            Resolved {| ContentLength := cl |}).
    rewrite try_catch_bind_resolved. cbn [ContentLength].
    destruct cl as [[| len] |]; try reflexivity.
    specialize (Hle _ eq_refl).
    destruct (N.pos m <? N.pos len)%N eqn:E; [| reflexivity].
    apply N.ltb_lt in E. lia. }
  split; [exact H |].
  pose proof (download_requests opts env k target) as Hd.
  rewrite H. unfold requests in *. unfold log_of at 1.
  cbn [fst filter is_request]. now rewrite Hd.
Qed.

(** X7.  The upload limit is inclusive.  With a maximum [S] other than 0 and
    an estimate of at most [S] (equal to [S] included), [put] sends the
    upload. *)
Theorem output_within_limit_is_uploaded
    (opts : CloudflareR2CacheProviderOptions) (env : Backend)
    (k : string) (target : Target) (S total : N) :
  k <> "" ->
  maxSize opts = Some S ->
  S <> 0%N ->
  result_of (estimate env (cwd target) (outputGlob_of target) 0%N) = Resolved total ->
  (total <= S)%N ->
  put opts env k target =
  try_catch (upload opts env k target (outputGlob_of target)) put_catch
  /\ requests (log_of (put opts env k target))
     = [Send (PutObjectCommand (bucket opts) k
                (tar_pack (cwd target) (pack_entries_of (outputGlob_of target)))
                "application/x-tar")].
Proof.
  intros Hk HS HS0 Hest Hle.
  assert (H : put opts env k target =
              try_catch (upload opts env k target (outputGlob_of target)) put_catch).
  { unfold put. rewrite (nonempty_key k Hk), HS.
    destruct S as [| m]; [congruence |]. cbv zeta.
    pose proof (estimate_log env (cwd target) (outputGlob_of target) 0%N) as Hlog.
    destruct (estimate env (cwd target) (outputGlob_of target) 0%N) as [l r].
    simpl in Hlog, Hest. subst l r.
    rewrite try_catch_bind_resolved.
    destruct (N.pos m <? total)%N eqn:E; [apply N.ltb_lt in E; lia |].
    simpl. now destruct (try_catch _ _). }
  split; [exact H |]. rewrite H. apply upload_requests.
Qed.

(** X8.  With [stat] resolving for every output entry that exists as a
    literal path, the estimate of [put] is the sum of their sizes, entry by
    entry; entries that do not exist add nothing. *)
Theorem estimate_is_the_literal_total
    (env : Backend) (cwd : string) (outputGlob : list string) :
  stats_resolve env cwd outputGlob = true ->
  estimate env cwd outputGlob 0%N = ([], Resolved (literal_total env cwd outputGlob)).
Proof.
  intros H.
  pose proof (estimate_app env cwd outputGlob [] 0%N H) as E.
  rewrite app_nil_r in E. rewrite E. reflexivity.
Qed.

(** X9.  With a maximum other than 0, an output entry that exists but
    cannot be stat'ed (the entries before it being fine) makes [put] give
    up: it sends nothing, logs the failure and resolves. *)
Theorem stat_failure_skips_the_upload
    (opts : CloudflareR2CacheProviderOptions) (env : Backend)
    (k : string) (target : Target) (S : N)
    (pre : list string) (g : string) (post : list string) (e : JsError) :
  k <> "" ->
  maxSize opts = Some S ->
  S <> 0%N ->
  outputGlob_of target = pre ++ g :: post ->
  stats_resolve env (cwd target) pre = true ->
  fs_existsSync env (path_resolve env (cwd target) g) = true ->
  fs_stat env (path_resolve env (cwd target) g) = Rejected e ->
  put opts env k target = ([Silly (PutFailed (message_of e))], Resolved tt).
Proof.
  intros Hk HS HS0 Hglob Hpre Hex Hstat.
  unfold put. rewrite (nonempty_key k Hk), HS.
  destruct S as [| m]; [congruence |]. cbv zeta.
  rewrite Hglob, (estimate_app env (cwd target) pre (g :: post) 0%N Hpre).
  simpl. rewrite Hex, Hstat. reflexivity.
Qed.

End R2PutFurtherClaims.

(** ** The timeout guard and the storage wrapper *)

Section GuardAndWrapper.

Import CloudflareR2CacheProvider Further.

(** X10.  The timeout guard is all or nothing, and only the first chunk
    decides.  When the first chunk arrives after the firing time, the
    timer's callback destroys the stream with the timeout error before
    anything is passed downstream; when it arrives before the firing time,
    the stream is never destroyed, its timer is cleared, and it passes every
    chunk, unchanged and in order, however late the later ones arrive.  A
    first chunk that arrives at the firing time itself goes one way or the
    other, whichever callback the event loop runs first. *)
Theorem timeout_guard_is_all_or_nothing
    (first : bool) (T : N) (msg : string) (l : list (N * chunk)) :
  (destroyed (feed first (new_TimeoutStream 0 T msg) l) = Some (new_Error msg)
   /\ pushed (feed first (new_TimeoutStream 0 T msg) l) = []
   /\ exists t c rest,
        l = (t, c) :: rest /\ (T <= t)%N /\ (t = T -> first = true))
  \/ (destroyed (feed first (new_TimeoutStream 0 T msg) l) = None
      /\ pushed (feed first (new_TimeoutStream 0 T msg) l) = map snd l
      /\ (l = []
          \/ exists t c rest,
               l = (t, c) :: rest /\ (t <= T)%N /\ (t = T -> first = false)
               /\ timeout (feed first (new_TimeoutStream 0 T msg) l) = None)).
Proof.
  destruct l as [| [t c] rest].
  - right. simpl. auto.
  - cbn [feed destroyed new_TimeoutStream].
    destruct (due first (new_TimeoutStream 0 T msg) t) eqn:E.
    + left. unfold due in E. simpl in E.
      split; [reflexivity |]. split; [reflexivity |].
      exists t, c, rest. split; [reflexivity |].
      apply orb_true_iff in E. destruct E as [E | E].
      * apply N.ltb_lt in E. split; [lia | intros ->; lia].
      * apply andb_true_iff in E. destruct E as [Hfirst E].
        apply N.eqb_eq in E. split; [lia | auto].
    + right. unfold due in E. simpl in E.
      apply orb_false_iff in E. destruct E as [E1 E2].
      apply N.ltb_ge in E1.
      rewrite feed_disarmed by reflexivity. simpl.
      split; [reflexivity |]. split; [reflexivity |].
      right. exists t, c, rest. split; [reflexivity |]. split; [exact E1 |].
      split; [| reflexivity].
      intros ->. rewrite N.eqb_refl in E2. now rewrite andb_true_r in E2.
Qed.

(** The commands in the log of [fetch]. *)
Lemma fetch_commands (opts : CloudflareR2CacheProviderOptions) (env : Backend)
    (k : string) (target : Target) (c : S3Command) :
  In (Send c) (log_of (fetch opts env k target)) ->
  c = HeadObjectCommand (bucket opts) k \/ c = GetObjectCommand (bucket opts) k.
Proof.
  assert (Hd : In (Send c)
                 (log_of (try_catch (download opts env k target) (fetch_catch k))) ->
               c = GetObjectCommand (bucket opts) k).
  { destruct (download_log opts env k target) as [lines ->].
    intros [H | H]; [congruence |].
    apply in_map_iff in H. destruct H as (x & Hx & _). discriminate. }
  destruct (fetch_cases opts env k target)
    as [[_ H] | [(Hk & pre & Hpre & H) | [(_ & line & H) | [_ H]]]];
    rewrite H; simpl; intros Hin.
  - destruct Hin.
  - apply in_app_or in Hin. destruct Hin as [Hin | Hin]; [| right; auto].
    destruct Hpre as [-> | ->]; simpl in Hin; [tauto |].
    left. intuition congruence.
  - left. intuition congruence.
  - left. intuition congruence.
Qed.

(** The commands in the log of [put]. *)
Lemma put_commands (opts : CloudflareR2CacheProviderOptions) (env : Backend)
    (k : string) (target : Target) (c : S3Command) :
  In (Send c) (log_of (put opts env k target)) ->
  c = PutObjectCommand (bucket opts) k
        (tar_pack (cwd target) (pack_entries_of (outputGlob_of target)))
        "application/x-tar".
Proof.
  assert (Hup : In (Send c)
                  (log_of (try_catch (upload opts env k target (outputGlob_of target))
                             put_catch)) ->
                c = PutObjectCommand (bucket opts) k
                      (tar_pack (cwd target) (pack_entries_of (outputGlob_of target)))
                      "application/x-tar").
  { unfold upload, send, put_catch. simpl.
    destruct (put_object env (bucket opts) k _); simpl; intuition congruence. }
  unfold put. destruct (String.eqb k ""); [simpl; tauto |].
  destruct (maxSize opts) as [[| m] |]; cbv zeta; try exact Hup.
  pose proof (estimate_log env (cwd target) (outputGlob_of target) 0%N) as Hlog.
  destruct (estimate env (cwd target) (outputGlob_of target) 0%N)
    as [l [n | e | ]]; simpl in Hlog; subst l.
  - rewrite try_catch_bind_resolved.
    destruct (N.pos m <? n)%N; [simpl; intuition congruence | exact Hup].
  - simpl. intuition congruence.
  - simpl. tauto.
Qed.

(** X11.  A storage wrapper built for a configuration and a directory stays
    in that bucket and that directory: every command of its [fetch] is the
    probe or the download of the hash in the configured bucket, a hit means
    the object was unpacked into the directory, every command of its [put]
    is the upload of the archive of that directory, restricted to the
    patterns given to [put], and with the empty hash neither does
    anything. *)
Theorem wrapper_stays_in_its_bucket_and_directory
    (config : CloudflareR2CacheStorageConfig.options) (dir : string)
    (env : Backend) (hash : string) (outputGlob : list string) :
  (forall c,
      In (Send c) (log_of (CloudflareR2CacheStorageWrapper.fetch
                             (CloudflareR2CacheStorageWrapper.new config dir) env hash)) ->
      c = HeadObjectCommand (CloudflareR2CacheStorageConfig.bucket config) hash
      \/ c = GetObjectCommand (CloudflareR2CacheStorageConfig.bucket config) hash)
  /\ (result_of (CloudflareR2CacheStorageWrapper.fetch
                  (CloudflareR2CacheStorageWrapper.new config dir) env hash)
      = Resolved true ->
      exists body,
        get_object env (CloudflareR2CacheStorageConfig.bucket config) hash
        = Resolved {| Body := Some body |}
        /\ pipelineAsync body
             (new_TimeoutStream 0 fetch_timeout_ms (timeout_message hash))
             (tar_extract env dir) = Resolved tt)
  /\ (forall c,
        In (Send c) (log_of (CloudflareR2CacheStorageWrapper.put
                               (CloudflareR2CacheStorageWrapper.new config dir)
                               env hash outputGlob)) ->
        c = PutObjectCommand (CloudflareR2CacheStorageConfig.bucket config) hash
              (tar_pack dir (pack_entries_of outputGlob)) "application/x-tar")
  /\ CloudflareR2CacheStorageWrapper.fetch
       (CloudflareR2CacheStorageWrapper.new config dir) env ""
     = ([], Resolved false)
  /\ CloudflareR2CacheStorageWrapper.put
       (CloudflareR2CacheStorageWrapper.new config dir) env "" outputGlob
     = ([], Resolved tt).
Proof.
  unfold CloudflareR2CacheStorageWrapper.fetch, CloudflareR2CacheStorageWrapper.put,
    CloudflareR2CacheStorageWrapper.new.
  cbn [CloudflareR2CacheStorageWrapper.r2Provider
       CloudflareR2CacheStorageWrapper.target id cwd].
  set (o := {| accountId := CloudflareR2CacheStorageConfig.accountId config;
               bucket := CloudflareR2CacheStorageConfig.bucket config;
               apiToken := CloudflareR2CacheStorageConfig.apiToken config;
               endpoint := CloudflareR2CacheStorageConfig.endpoint config;
               region := CloudflareR2CacheStorageConfig.region config;
               maxSize := CloudflareR2CacheStorageConfig.maxSize config;
               root := dir |}).
  set (tf := {| id := "backfill-target"; cwd := dir; outputs := Some ["**/*"] |}).
  set (tp := {| id := "backfill-target"; cwd := dir; outputs := Some outputGlob |}).
  split; [| split; [| split; [| split; reflexivity]]].
  - intros c Hin. exact (fetch_commands o env hash tf c Hin).
  - intros Hhit.
    destruct (fetch_cases o env hash tf)
      as [[_ H] | [(Hk & pre & _ & H) | [(_ & line & H) | [_ H]]]];
      rewrite H in Hhit; try discriminate.
    exact (download_hit o env hash tf Hhit).
  - intros c Hin. exact (put_commands o env hash tp c Hin).
Qed.

End GuardAndWrapper.

(** ** The orchestrator and its hit tables *)

Section LRUFurther.

Import LRU.

Lemma set_ttl (k : string) (v : bool) (t : N) (c : LRUCache) :
  ttl (set k v t c) = ttl c.
Proof.
  unfold set. destruct (find k (items c)); [reflexivity |].
  destruct (max c <=? length (items c)); reflexivity.
Qed.

Lemma get_ttl (k : string) (t : N) (c : LRUCache) :
  ttl (snd (get k t c)) = ttl c.
Proof.
  unfold get. destruct (find k (items c)) as [e |]; [| reflexivity].
  destruct (isStale c e t); reflexivity.
Qed.

Lemma find_set (k : string) (v : bool) (t : N) (c : LRUCache) :
  find k (items (set k v t c)) = Some {| key := k; value := v; start := t |}.
Proof.
  unfold set. destruct (find k (items c)).
  - simpl. now rewrite String.eqb_refl.
  - destruct (max c <=? length (items c)); simpl; now rewrite String.eqb_refl.
Qed.

Lemma find_remove_same (k : string) (l : list entry) :
  find k (remove k l) = None.
Proof.
  induction l as [| e l IH]; simpl; [reflexivity |].
  destruct (String.eqb k (key e)) eqn:E; [exact IH |].
  simpl. now rewrite E.
Qed.

Lemma find_remove_other (k k' : string) (l : list entry) :
  k' <> k -> find k' (remove k l) = find k' l.
Proof.
  intros Hne. induction l as [| e l IH]; simpl; [reflexivity |].
  destruct (String.eqb k (key e)) eqn:E.
  - apply String.eqb_eq in E.
    destruct (String.eqb k' (key e)) eqn:E'; [| exact IH].
    apply String.eqb_eq in E'. congruence.
  - simpl. now rewrite IH.
Qed.

(** Reading a live entry: its value, and the entry stays in the table. *)
Lemma get_live (k : string) (t : N) (c : LRUCache) (e : entry) :
  find k (items c) = Some e ->
  isStale c e t = false ->
  fst (get k t c) = Some (value e)
  /\ find k (items (snd (get k t c))) = Some e.
Proof.
  intros Hfind Hlive. unfold get. rewrite Hfind, Hlive. simpl.
  split; [reflexivity |].
  rewrite <- (find_key k _ e Hfind) at 1. now rewrite String.eqb_refl.
Qed.

(** Reading a stale entry: nothing, and the entry is gone. *)
Lemma get_stale (k : string) (t : N) (c : LRUCache) (e : entry) :
  find k (items c) = Some e ->
  isStale c e t = true ->
  fst (get k t c) = None
  /\ find k (items (snd (get k t c))) = None.
Proof.
  intros Hfind Hstale. unfold get. rewrite Hfind, Hstale. simpl.
  split; [reflexivity | apply find_remove_same].
Qed.

Lemma get_absent (k : string) (t : N) (c : LRUCache) :
  find k (items c) = None -> get k t c = (None, c).
Proof. intros H. unfold get. now rewrite H. Qed.

(** A read changes no record: whatever is in the table afterwards was there
    before. *)
Lemma get_records_nothing (k k' : string) (t : N) (c : LRUCache) (e : entry) :
  find k' (items (snd (get k t c))) = Some e -> find k' (items c) = Some e.
Proof.
  unfold get. destruct (find k (items c)) as [e0 |] eqn:Hfind; [| auto].
  destruct (String.eqb k' k) eqn:E.
  - apply String.eqb_eq in E. subst k'.
    destruct (isStale c e0 t); simpl.
    + now rewrite find_remove_same.
    + rewrite <- (find_key k _ e0 Hfind) at 1. rewrite String.eqb_refl. congruence.
  - apply String.eqb_neq in E.
    destruct (isStale c e0 t); simpl.
    + now rewrite find_remove_other.
    + rewrite (find_key k _ e0 Hfind) at 1.
      destruct (String.eqb k' k) eqn:E'; [apply String.eqb_eq in E'; congruence |].
      now rewrite find_remove_other.
Qed.

(** An entry read at the very time it was written is live. *)
Lemma fresh_is_live (c : LRUCache) (k : string) (v : bool) (t : N) :
  isStale c {| key := k; value := v; start := t |} t = false.
Proof.
  unfold isStale. simpl. rewrite N.sub_diag.
  destruct (ttl c <? 0)%N eqn:E; [apply N.ltb_lt in E; lia | reflexivity].
Qed.

End LRUFurther.

Section OrchestratorFurther.

Import LRU RemoteFallbackCacheProvider Further.

Context {W : Type}.
Variable now : W -> N.

(** The local lookup through a local provider: its answer is recorded at the
    time it arrived, as the most recent entry, and read back. *)
Lemma lookup_local_asked
    (opts : RemoteFallbackCacheProviderOptions) (lp : CacheProvider)
    (k : string) (target : Target) (s : @State W) (b : bool) (w1 : W) :
  localCacheProvider opts = Some lp ->
  cp_fetch lp k target (world s) = (b, w1) ->
  exists L,
    lookup_local now opts k target s =
    (Some b, {| localHits := L; remoteHits := remoteHits s; world := w1;
                calls := calls s ++ [Fetch Local k target] |})
    /\ find k (items L) = Some {| key := k; value := b; LRU.start := now w1 |}
    /\ ttl L = ttl (localHits s)
    /\ hd_error (keys L) = Some k.
Proof.
  intros Hlp Hfetch.
  unfold lookup_local, mbind, call_fetch, localHits_set, localHits_get.
  rewrite Hlp, Hfetch. cbn [world localHits remoteHits calls].
  destruct (get_live k (now w1) (set k b (now w1) (localHits s)) _
              (find_set k b (now w1) (localHits s))
              (fresh_is_live _ k b (now w1))) as [Hv Hfind].
  pose proof (get_ttl k (now w1) (set k b (now w1) (localHits s))) as Httl.
  pose proof (get_moves_to_front k (now w1) (set k b (now w1) (localHits s)) b Hv)
    as Hfront.
  destruct (get k (now w1) (set k b (now w1) (localHits s))) as [v L].
  simpl in *. subst v. exists L. rewrite set_ttl in Httl. auto.
Qed.

(** The local lookup without a local provider only reads the table. *)
Lemma lookup_local_not_asked
    (opts : RemoteFallbackCacheProviderOptions)
    (k : string) (target : Target) (s : @State W) :
  localCacheProvider opts = None ->
  lookup_local now opts k target s =
  (fst (get k (now (world s)) (localHits s)),
   {| localHits := snd (get k (now (world s)) (localHits s));
      remoteHits := remoteHits s; world := world s; calls := calls s |}).
Proof.
  intros Hlp. unfold lookup_local, mbind, mret, localHits_get. rewrite Hlp.
  now destruct (get k (now (world s)) (localHits s)).
Qed.

(** The second half of [fetch], after the local lookup. *)
Lemma fetch_after_lookup
    (opts : RemoteFallbackCacheProviderOptions)
    (k : string) (target : Target) (s s1 : @State W) (v : option bool) :
  lookup_local now opts k target s = (v, s1) ->
  fetch now opts k target s =
  match or_false v, remoteCacheProvider opts with
  | false, Some rp =>
      (fst (cp_fetch rp k target (world s1)),
       {| localHits := localHits s1;
          remoteHits := set k (fst (cp_fetch rp k target (world s1)))
                          (now (snd (cp_fetch rp k target (world s1))))
                          (remoteHits s1);
          world := match localCacheProvider opts,
                         fst (cp_fetch rp k target (world s1)) with
                   | Some lp, true =>
                       cp_put lp k target (snd (cp_fetch rp k target (world s1)))
                   | _, _ => snd (cp_fetch rp k target (world s1))
                   end;
          calls := calls s1 ++ Fetch Remote k target
                   :: match localCacheProvider opts,
                            fst (cp_fetch rp k target (world s1)) with
                      | Some _, true => [Put Local k target]
                      | _, _ => []
                      end |})
  | _, _ => (or_false v, s1)
  end.
Proof.
  intros Hlook. unfold fetch, mbind. rewrite Hlook.
  destruct (or_false v); [reflexivity |].
  destruct (remoteCacheProvider opts) as [rp |]; [| reflexivity].
  unfold call_fetch, remoteHits_set, call_put, mret.
  destruct (cp_fetch rp k target (world s1)) as [rh w2].
  cbn [fst snd world localHits remoteHits calls].
  destruct (localCacheProvider opts) as [lp |], rh; simpl;
    rewrite <- ?app_assoc; reflexivity.
Qed.

(** The first half of [put]. *)
Lemma put_local_unfold
    (opts : RemoteFallbackCacheProviderOptions)
    (k : string) (target : Target) (s : @State W) :
  snd (put_local now opts k target s) =
  {| localHits := snd (get k (now (world s)) (localHits s));
     remoteHits := remoteHits s;
     world := match negb (or_false (fst (get k (now (world s)) (localHits s)))),
                    localCacheProvider opts with
              | true, Some lp => cp_put lp k target (world s)
              | _, _ => world s
              end;
     calls := calls s ++
              match negb (or_false (fst (get k (now (world s)) (localHits s)))),
                    localCacheProvider opts with
              | true, Some _ => [Put Local k target]
              | _, _ => []
              end |}.
Proof.
  unfold put_local, isLocalHit, mbind, mret, localHits_get, call_put.
  destruct (get k (now (world s)) (localHits s)) as [v L].
  cbn [fst snd].
  destruct (negb (or_false v)), (localCacheProvider opts) as [lp |]; simpl;
    rewrite ?app_nil_r; reflexivity.
Qed.

(** [put] is its first half followed by the check of the remote hit table
    and the remote write. *)
Lemma put_unfold
    (opts : RemoteFallbackCacheProviderOptions)
    (k : string) (target : Target) (s : @State W) :
  snd (put now opts k target s) =
  {| localHits := localHits (snd (put_local now opts k target s));
     remoteHits := snd (get k (now (world (snd (put_local now opts k target s))))
                          (remoteHits s));
     world := match negb (or_false (fst (get k
                       (now (world (snd (put_local now opts k target s))))
                       (remoteHits s)))),
                    remoteCacheProvider opts, writeRemoteCache opts with
              | true, Some rp, Some true =>
                  cp_put rp k target (world (snd (put_local now opts k target s)))
              | _, _, _ => world (snd (put_local now opts k target s))
              end;
     calls := calls (snd (put_local now opts k target s)) ++
              match negb (or_false (fst (get k
                       (now (world (snd (put_local now opts k target s))))
                       (remoteHits s)))),
                    remoteCacheProvider opts, writeRemoteCache opts with
              | true, Some _, Some true => [Put Remote k target]
              | _, _, _ => []
              end |}.
Proof.
  rewrite put_local_unfold.
  unfold put, isLocalHit, isRemoteHit, mbind, mret, localHits_get, remoteHits_get,
    call_put.
  destruct (get k (now (world s)) (localHits s)) as [v L].
  cbn [fst snd].
  destruct (negb (or_false v)), (localCacheProvider opts) as [lp |];
    cbn [world localHits remoteHits calls];
    match goal with
    | |- context [get k (now ?w) (remoteHits s)] =>
        destruct (get k (now w) (remoteHits s)) as [v' R]
    end;
    cbn [fst snd];
    destruct (negb (or_false v')), (remoteCacheProvider opts) as [rp |],
             (writeRemoteCache opts) as [[|] |];
    simpl; rewrite ?app_nil_r; reflexivity.
Qed.

End OrchestratorFurther.

Section OrchestratorFurtherClaims.

Import LRU RemoteFallbackCacheProvider Further.

Context {W : Type}.
Variable now : W -> N.

Ltac made_by_calls :=
  apply made_exact; cbn [calls]; rewrite <- ?app_assoc, ?app_nil_r; reflexivity.

(** X12.  [clear] forgets every hit, whatever the tiers configured: both hit
    tables are empty afterwards, so no key reads as a local or a remote hit;
    the only provider call it makes is the local provider's [clear], when
    there is one, never the remote provider's.  [purge] leaves both tables as
    they are and only calls the local provider's [purge], when there is
    one. *)
Theorem clear_forgets_every_hit
    (opts : RemoteFallbackCacheProviderOptions) (s : @State W)
    (k : string) (d : N) :
  size (localHits (snd (clear opts s))) = 0
  /\ size (remoteHits (snd (clear opts s))) = 0
  /\ made s (snd (clear opts s))
     = match localCacheProvider opts with Some _ => [Clear Local] | None => [] end
  /\ fst (isLocalHit now k (snd (clear opts s))) = false
  /\ fst (isRemoteHit now k (snd (clear opts s))) = false
  /\ localHits (snd (purge opts d s)) = localHits s
  /\ remoteHits (snd (purge opts d s)) = remoteHits s
  /\ made s (snd (purge opts d s))
     = match localCacheProvider opts with Some _ => [Purge Local d] | None => [] end.
Proof.
  unfold clear, purge, mbind, mret, call_clear, call_purge, isLocalHit, isRemoteHit,
    localHits_get, remoteHits_get.
  destruct (localCacheProvider opts) as [lp |]; cbn;
    repeat split; try reflexivity; made_by_calls.
Qed.

(** X13.  When the local provider misses, [fetch] returns what the remote
    provider answers, and false when there is none.  It calls the local
    [fetch], then the remote [fetch], and the local [put] only if the remote
    answer is a hit: a remote miss is not written to the local tier. *)
Theorem local_miss_defers_to_remote
    (opts : RemoteFallbackCacheProviderOptions) (lp : CacheProvider)
    (k : string) (target : Target) (s : @State W) (w1 : W) :
  localCacheProvider opts = Some lp ->
  cp_fetch lp k target (world s) = (false, w1) ->
  fst (fetch now opts k target s)
  = match remoteCacheProvider opts with
    | Some rp => fst (cp_fetch rp k target w1)
    | None => false
    end
  /\ made s (snd (fetch now opts k target s))
     = Fetch Local k target
       :: match remoteCacheProvider opts with
          | Some rp =>
              Fetch Remote k target
              :: (if fst (cp_fetch rp k target w1) then [Put Local k target] else [])
          | None => []
          end.
Proof.
  intros Hlp Hmiss.
  destruct (lookup_local_asked now opts lp k target s false w1 Hlp Hmiss)
    as (L & Hlook & _).
  rewrite (fetch_after_lookup now opts k target s _ _ Hlook).
  cbn [or_false world calls localHits remoteHits]. rewrite Hlp.
  destruct (remoteCacheProvider opts) as [rp |].
  - cbn [fst snd]. split; [reflexivity |].
    destruct (fst (cp_fetch rp k target w1)); made_by_calls.
  - cbn [fst snd]. split; [reflexivity | made_by_calls].
Qed.

(** X14.  The provider calls of one [fetch] are one of five sequences, all
    about the key fetched: nothing; the local [fetch]; the remote [fetch];
    the local then the remote [fetch]; or these two followed by the local
    [put].  So [fetch] never writes to the remote tier and never clears or
    purges; without a local provider it makes no local call, and without a
    remote provider no remote call. *)
Theorem fetch_call_sequences
    (opts : RemoteFallbackCacheProviderOptions)
    (k : string) (target : Target) (s : @State W) :
  (made s (snd (fetch now opts k target s)) = []
   \/ made s (snd (fetch now opts k target s)) = [Fetch Local k target]
   \/ made s (snd (fetch now opts k target s)) = [Fetch Remote k target]
   \/ made s (snd (fetch now opts k target s))
      = [Fetch Local k target; Fetch Remote k target]
   \/ made s (snd (fetch now opts k target s))
      = [Fetch Local k target; Fetch Remote k target; Put Local k target])
  /\ (localCacheProvider opts = None ->
      made s (snd (fetch now opts k target s)) = []
      \/ made s (snd (fetch now opts k target s)) = [Fetch Remote k target])
  /\ (remoteCacheProvider opts = None ->
      made s (snd (fetch now opts k target s)) = []
      \/ made s (snd (fetch now opts k target s)) = [Fetch Local k target]).
Proof.
  destruct (localCacheProvider opts) as [lp |] eqn:Hlp.
  - destruct (cp_fetch lp k target (world s)) as [b w1] eqn:Hfetch.
    destruct (lookup_local_asked now opts lp k target s b w1 Hlp Hfetch)
      as (L & Hlook & _).
    rewrite (fetch_after_lookup now opts k target s _ _ Hlook).
    cbn [or_false world calls localHits remoteHits]. rewrite Hlp.
    assert (H1 : made s {| localHits := L; remoteHits := remoteHits s; world := w1;
                           calls := calls s ++ [Fetch Local k target] |}
                 = [Fetch Local k target]) by made_by_calls.
    destruct b; cbn [fst snd].
    + destruct (remoteCacheProvider opts); rewrite H1;
        repeat split; try discriminate; auto.
    + destruct (remoteCacheProvider opts) as [rp |]; cbn [fst snd].
      * destruct (fst (cp_fetch rp k target w1));
          (split; [| split; discriminate]).
        -- right. right. right. right. made_by_calls.
        -- right. right. right. left. made_by_calls.
      * rewrite H1. repeat split; try discriminate; auto.
  - rewrite (fetch_after_lookup now opts k target s _ _
               (lookup_local_not_asked now opts k target s Hlp)).
    cbn [world calls localHits remoteHits]. rewrite Hlp.
    set (s1 := {| localHits := snd (get k (now (world s)) (localHits s));
                  remoteHits := remoteHits s; world := world s; calls := calls s |}).
    assert (H0 : made s s1 = []) by (subst s1; made_by_calls).
    destruct (or_false (fst (get k (now (world s)) (localHits s)))); cbn [fst snd].
    + destruct (remoteCacheProvider opts); rewrite H0; repeat split; auto.
    + destruct (remoteCacheProvider opts) as [rp |]; cbn [fst snd].
      * match goal with
        | |- context [made s ?st] =>
            assert (H2 : made s st = [Fetch Remote k target])
        end.
        { apply made_exact. cbn.
          now destruct (fst (cp_fetch rp k target (world s))). }
        rewrite H2. repeat split; try discriminate; auto.
      * rewrite H0. repeat split; auto.
Qed.

(** X15.  The provider calls of one [put] are the local [put], the remote
    [put], both in that order, or neither, all for the key and the target
    given: [put] never fetches, clears or purges.  And [put] records no hit:
    every record found in a hit table afterwards was there before,
    unchanged. *)
Theorem put_call_sequences
    (opts : RemoteFallbackCacheProviderOptions)
    (k : string) (target : Target) (s : @State W) :
  (made s (snd (put now opts k target s)) = []
   \/ made s (snd (put now opts k target s)) = [Put Local k target]
   \/ made s (snd (put now opts k target s)) = [Put Remote k target]
   \/ made s (snd (put now opts k target s))
      = [Put Local k target; Put Remote k target])
  /\ (forall k' e,
        find k' (items (localHits (snd (put now opts k target s)))) = Some e ->
        find k' (items (localHits s)) = Some e)
  /\ (forall k' e,
        find k' (items (remoteHits (snd (put now opts k target s)))) = Some e ->
        find k' (items (remoteHits s)) = Some e).
Proof.
  rewrite put_unfold, put_local_unfold. cbn [localHits remoteHits world calls].
  split; [| split].
  - destruct (negb (or_false (fst (get k (now (world s)) (localHits s))))),
             (localCacheProvider opts) as [lp |];
      match goal with
      | |- context [get k (now ?w) (remoteHits s)] =>
          destruct (negb (or_false (fst (get k (now w) (remoteHits s)))))
      end;
      destruct (remoteCacheProvider opts) as [rp |],
               (writeRemoteCache opts) as [[|] |];
      first [ left; made_by_calls
            | right; left; made_by_calls
            | right; right; left; made_by_calls
            | right; right; right; made_by_calls ].
  - intros k' e. apply get_records_nothing.
  - intros k' e. apply get_records_nothing.
Qed.

(** X16.  A local hit suppresses the local write: a [put] of the key right
    after a [fetch] that the local provider satisfied, by any instance and
    for any target, makes no call to a local provider's [put]. *)
Theorem put_after_local_hit_skips_local
    (opts opts' : RemoteFallbackCacheProviderOptions) (lp : CacheProvider)
    (k : string) (target target' : Target) (s : @State W) :
  localCacheProvider opts = Some lp ->
  fst (cp_fetch lp k target (world s)) = true ->
  filter is_local_put
    (made (snd (fetch now opts k target s))
          (snd (put now opts' k target' (snd (fetch now opts k target s))))) = [].
Proof.
  intros Hlp Hhit.
  destruct (cp_fetch lp k target (world s)) as [b w1] eqn:Hfetch.
  simpl in Hhit. subst b.
  destruct (lookup_local_asked now opts lp k target s true w1 Hlp Hfetch)
    as (L & Hlook & Hfind & _).
  rewrite (fetch_after_lookup now opts k target s _ _ Hlook).
  cbn [or_false fst snd].
  rewrite put_unfold, put_local_unfold. cbn [localHits remoteHits world calls].
  destruct (get_live k (now w1) L _ Hfind (fresh_is_live L k true (now w1)))
    as [Hv _].
  rewrite Hv. cbn [value or_false negb].
  match goal with
  | |- context [get k (now ?w) (remoteHits s)] =>
      destruct (negb (or_false (fst (get k (now w) (remoteHits s)))))
  end;
    destruct (remoteCacheProvider opts') as [rp |],
             (writeRemoteCache opts') as [[|] |];
    match goal with
    | |- filter _ (made ?a ?b) = _ =>
        first [ rewrite (made_exact a b [Put Remote k target'])
                  by (cbn [calls]; rewrite <- ?app_assoc, ?app_nil_r; reflexivity)
              | rewrite (made_exact a b [])
                  by (cbn [calls]; rewrite <- ?app_assoc, ?app_nil_r; reflexivity) ]
    end; reflexivity.
Qed.

(** X17.  A remote hit suppresses the remote write: after a [fetch] that the
    remote provider satisfied, a [put] of the key that reads the remote hit
    table while the record is still live (no more than the time to live
    after the remote answer) makes no call to a remote provider's [put],
    even with [writeRemoteCache] set. *)
Theorem put_after_remote_hit_skips_remote
    (opts opts' : RemoteFallbackCacheProviderOptions) (rp : CacheProvider)
    (k : string) (target target' : Target) (s s0 : @State W)
    (v : option bool) (w2 : W) :
  lookup_local now opts k target s = (v, s0) ->
  or_false v = false ->
  remoteCacheProvider opts = Some rp ->
  cp_fetch rp k target (world s0) = (true, w2) ->
  (now (world (snd (put_local now opts' k target'
                      (snd (fetch now opts k target s))))) - now w2
   <= ttl (remoteHits s0))%N ->
  filter is_remote_put
    (made (snd (fetch now opts k target s))
          (snd (put now opts' k target' (snd (fetch now opts k target s))))) = [].
Proof.
  intros Hlook Hmiss Hrp Hhit.
  rewrite (fetch_after_lookup now opts k target s _ _ Hlook).
  rewrite Hmiss, Hrp, Hhit. cbn [fst snd].
  set (s1 := {| localHits := localHits s0;
                remoteHits := set k true (now w2) (remoteHits s0);
                world := _; calls := _ |}).
  intros Hlive.
  rewrite put_unfold.
  assert (Hv : fst (get k (now (world (snd (put_local now opts' k target' s1))))
                      (remoteHits s1)) = Some true).
  { destruct (get_live k (now (world (snd (put_local now opts' k target' s1))))
                (remoteHits s1) _ (find_set k true (now w2) (remoteHits s0)))
      as [H _]; [| exact H].
    unfold isStale. cbn [LRU.start]. subst s1. cbn [remoteHits].
    rewrite set_ttl. apply N.ltb_ge. exact Hlive. }
  rewrite Hv. cbn [or_false negb].
  rewrite put_local_unfold. cbn [calls].
  destruct (negb (or_false (fst (get k (now (world s1)) (localHits s1))))),
           (localCacheProvider opts') as [lp' |];
    match goal with
    | |- filter _ (made ?a ?b) = _ =>
        first [ rewrite (made_exact a b [Put Local k target'])
                  by (cbn [calls]; rewrite <- ?app_assoc, ?app_nil_r; reflexivity)
              | rewrite (made_exact a b [])
                  by (cbn [calls]; rewrite <- ?app_assoc, ?app_nil_r; reflexivity) ]
    end; reflexivity.
Qed.

(** X18.  A recorded hit wears off: when more than the time to live has
    passed since a [fetch] that the local provider satisfied, a [put] of the
    key through an instance with a local provider calls that provider's
    [put] first, and the stale record is gone from the local hit table. *)
Theorem expired_hit_is_written_again
    (opts opts' : RemoteFallbackCacheProviderOptions) (lp lp' : CacheProvider)
    (k : string) (target target' : Target) (s : @State W) (w1 : W)
    (f : W -> W) :
  localCacheProvider opts = Some lp ->
  cp_fetch lp k target (world s) = (true, w1) ->
  localCacheProvider opts' = Some lp' ->
  (ttl (localHits s) < now (f w1) - now w1)%N ->
  (exists rest,
      made (step now (OpElapse f) (snd (fetch now opts k target s)))
           (snd (put now opts' k target'
                   (step now (OpElapse f) (snd (fetch now opts k target s)))))
      = Put Local k target' :: rest)
  /\ find k (items (localHits
                      (snd (put now opts' k target'
                              (step now (OpElapse f)
                                 (snd (fetch now opts k target s))))))) = None.
Proof.
  intros Hlp Hfetch Hlp' Hlate.
  destruct (lookup_local_asked now opts lp k target s true w1 Hlp Hfetch)
    as (L & Hlook & Hfind & Httl & _).
  rewrite (fetch_after_lookup now opts k target s _ _ Hlook).
  cbn [or_false fst snd step world localHits remoteHits calls].
  rewrite put_unfold, put_local_unfold. cbn [localHits remoteHits world calls].
  assert (Hstale : isStale L {| key := k; value := true; LRU.start := now w1 |}
                     (now (f w1)) = true).
  { unfold isStale. cbn [LRU.start]. rewrite Httl. now apply N.ltb_lt. }
  destruct (get_stale k (now (f w1)) L _ Hfind Hstale) as [Hv Hgone].
  rewrite Hv, Hlp'. cbn [or_false negb]. split; [| exact Hgone].
  match goal with
  | |- context [get k (now ?w) (remoteHits s)] =>
      destruct (negb (or_false (fst (get k (now w) (remoteHits s)))))
  end;
    destruct (remoteCacheProvider opts') as [rp |],
             (writeRemoteCache opts') as [[|] |];
    eexists; made_by_calls.
Qed.

(** X19.  The hit tables are shared by all instances: after a [fetch] that a
    local provider satisfied, an instance without a local provider that
    fetches the same key right away returns true without calling any
    provider, its remote one included. *)
Theorem hit_is_shared_across_instances
    (opts opts' : RemoteFallbackCacheProviderOptions) (lp : CacheProvider)
    (k : string) (target target' : Target) (s : @State W) :
  localCacheProvider opts = Some lp ->
  fst (cp_fetch lp k target (world s)) = true ->
  localCacheProvider opts' = None ->
  fst (fetch now opts' k target' (snd (fetch now opts k target s))) = true
  /\ made (snd (fetch now opts k target s))
          (snd (fetch now opts' k target' (snd (fetch now opts k target s)))) = [].
Proof.
  intros Hlp Hhit Hnone.
  destruct (cp_fetch lp k target (world s)) as [b w1] eqn:Hfetch.
  simpl in Hhit. subst b.
  destruct (lookup_local_asked now opts lp k target s true w1 Hlp Hfetch)
    as (L & Hlook & Hfind & _).
  rewrite (fetch_after_lookup now opts k target s _ _ Hlook).
  cbn [or_false fst snd].
  rewrite (fetch_after_lookup now opts' k target' _ _ _
             (lookup_local_not_asked now opts' k target' _ Hnone)).
  cbn [world localHits remoteHits calls].
  destruct (get_live k (now w1) L _ Hfind (fresh_is_live L k true (now w1)))
    as [Hv _].
  rewrite Hv. cbn [value or_false fst snd].
  split; [reflexivity | made_by_calls].
Qed.

(** X20.  A key without any record is written wherever writing is allowed:
    [put] calls the local [put] if a local provider is configured, then the
    remote [put] if a remote provider is configured and [writeRemoteCache]
    is true, and leaves both hit tables as they were. *)
Theorem unrecorded_key_is_written
    (opts : RemoteFallbackCacheProviderOptions)
    (k : string) (target : Target) (s : @State W) :
  find k (items (localHits s)) = None ->
  find k (items (remoteHits s)) = None ->
  made s (snd (put now opts k target s))
  = match localCacheProvider opts with
    | Some _ => [Put Local k target]
    | None => []
    end
    ++ match remoteCacheProvider opts, writeRemoteCache opts with
       | Some _, Some true => [Put Remote k target]
       | _, _ => []
       end
  /\ localHits (snd (put now opts k target s)) = localHits s
  /\ remoteHits (snd (put now opts k target s)) = remoteHits s.
Proof.
  intros Hl Hr.
  rewrite put_unfold, put_local_unfold. cbn [localHits remoteHits world calls].
  rewrite (get_absent k _ _ Hl), (get_absent k _ _ Hr).
  cbn [fst snd or_false negb].
  split; [| split; reflexivity].
  destruct (localCacheProvider opts) as [lp |],
           (remoteCacheProvider opts) as [rp |],
           (writeRemoteCache opts) as [[|] |]; made_by_calls.
Qed.

(** X21.  [fetch] records what it was told: the answer of the local provider
    becomes the most recent record of the local hit table, stamped with the
    time of the answer; on a local hit the remote hit table is left alone; on
    a local miss the answer of the remote provider becomes the most recent
    record of the remote hit table. *)
Theorem fetch_records_the_answers
    (opts : RemoteFallbackCacheProviderOptions) (lp : CacheProvider)
    (k : string) (target : Target) (s : @State W) (b : bool) (w1 : W) :
  localCacheProvider opts = Some lp ->
  cp_fetch lp k target (world s) = (b, w1) ->
  find k (items (localHits (snd (fetch now opts k target s))))
  = Some {| key := k; value := b; LRU.start := now w1 |}
  /\ hd_error (keys (localHits (snd (fetch now opts k target s)))) = Some k
  /\ (b = true -> remoteHits (snd (fetch now opts k target s)) = remoteHits s)
  /\ (b = false ->
      forall rp,
        remoteCacheProvider opts = Some rp ->
        find k (items (remoteHits (snd (fetch now opts k target s))))
        = Some {| key := k;
                  value := fst (cp_fetch rp k target w1);
                  LRU.start := now (snd (cp_fetch rp k target w1)) |}
        /\ hd_error (keys (remoteHits (snd (fetch now opts k target s)))) = Some k).
Proof.
  intros Hlp Hfetch.
  destruct (lookup_local_asked now opts lp k target s b w1 Hlp Hfetch)
    as (L & Hlook & Hfind & _ & Hfront).
  rewrite (fetch_after_lookup now opts k target s _ _ Hlook).
  cbn [or_false world calls localHits remoteHits].
  destruct b.
  - cbn [snd localHits remoteHits].
    split; [exact Hfind |]. split; [exact Hfront |].
    split; [reflexivity | discriminate].
  - destruct (remoteCacheProvider opts) as [rp |]; cbn [snd localHits remoteHits].
    + split; [exact Hfind |]. split; [exact Hfront |].
      split; [discriminate |].
      intros _ rp' H. injection H as <-.
      split; [apply find_set | apply set_moves_to_front].
    + split; [exact Hfind |]. split; [exact Hfront |].
      split; discriminate.
Qed.

End OrchestratorFurtherClaims.

(** ** The further properties at concrete inputs *)

Section FurtherInstances.

Import LRU CloudflareR2CacheProvider Examples Further.

Lemma fetch_hit_witness :
  testHash <> ""
  /\ In (Send (GetObjectCommand "test-bucket" testHash))
        (log_of (fetch (options (Some MB)) (backend 500 prompt_body []) testHash
                       (target ["lib/**/*"; "dist/**/*"])))
  /\ exists body,
       get_object (backend 500 prompt_body []) "test-bucket" testHash
       = Resolved {| Body := Some body |}
       /\ pipelineAsync body
            (new_TimeoutStream 0 fetch_timeout_ms (timeout_message testHash))
            (tar_extract (backend 500 prompt_body []) tempDir) = Resolved tt.
Proof.
  apply (fetch_hit_means_extracted (options (Some MB)) (backend 500 prompt_body [])
           testHash (target ["lib/**/*"; "dist/**/*"])).
  reflexivity.
Defined.

Lemma missing_body_witness :
  result_of (fetch (options (Some MB)) bodiless_store "test-hash"
                   (target ["dist/**/*"])) = Resolved false
  /\ In (Silly (FetchFailed "No body in R2 response"))
        (log_of (fetch (options (Some MB)) bodiless_store "test-hash"
                       (target ["dist/**/*"]))).
Proof.
  apply (missing_body_is_a_miss (options (Some MB)) bodiless_store "test-hash"
           (target ["dist/**/*"])).
  - right. left. reflexivity.
  - reflexivity.
Defined.

Lemma failed_pipeline_witness :
  result_of (fetch (options None) corrupt_store testHash (target ["dist/**/*"]))
  = Resolved false.
Proof.
  destruct (failed_pipeline_is_a_miss (options None) corrupt_store testHash
              (target ["dist/**/*"]) prompt_body) as (_ & Hextract & _).
  - left. reflexivity.
  - reflexivity.
  - apply (Hextract 5%N "tar" [] 9%N (new_Error "Invalid tar header"));
      reflexivity.
Defined.

Lemma fetch_commands_witness :
  requests (log_of (fetch (options (Some MB)) (backend 500 prompt_body []) testHash
                          (target ["lib/**/*"; "dist/**/*"])))
  = [Send (HeadObjectCommand "test-bucket" testHash)]
  \/ requests (log_of (fetch (options (Some MB)) (backend 500 prompt_body []) testHash
                             (target ["lib/**/*"; "dist/**/*"])))
     = [Send (HeadObjectCommand "test-bucket" testHash);
        Send (GetObjectCommand "test-bucket" testHash)].
Proof.
  destruct (fetch_sends_probe_then_download (options (Some MB))
              (backend 500 prompt_body []) testHash
              (target ["lib/**/*"; "dist/**/*"])) as (_ & Hreq & _).
  apply Hreq. discriminate.
Defined.

Lemma put_commands_witness :
  requests (log_of (put (options None) (backend 0 prompt_body []) testHash
                        (target ["**/*"])))
  = [Send (PutObjectCommand "test-bucket" testHash (tar_pack tempDir None)
             "application/x-tar")].
Proof.
  destruct (put_sends_one_upload_at_most (options None) (backend 0 prompt_body [])
              testHash (target ["**/*"])) as (_ & Hsent & _).
  apply Hsent; [discriminate | exact I].
Defined.

Lemma object_within_limit_witness :
  requests (log_of (fetch (options (Some MB)) (backend MB prompt_body []) testHash
                          (target ["lib/**/*"; "dist/**/*"])))
  = [Send (HeadObjectCommand "test-bucket" testHash);
     Send (GetObjectCommand "test-bucket" testHash)].
Proof.
  destruct (object_within_limit_is_downloaded (options (Some MB))
              (backend MB prompt_body []) testHash
              (target ["lib/**/*"; "dist/**/*"]) MB (Some MB)) as [_ Hreq].
  - discriminate.
  - reflexivity.
  - discriminate.
  - reflexivity.
  - intros len H. injection H as <-. apply N.le_refl.
  - exact Hreq.
Defined.

Lemma output_within_limit_witness :
  requests (log_of (put (options (Some 1228800%N))
                        (backend 0 prompt_body two_large_files) testHash
                        (target ["lib/file1.js"; "dist/file2.js"])))
  = [Send (PutObjectCommand "test-bucket" testHash
             (tar_pack tempDir (Some ["lib/file1.js"; "dist/file2.js"]))
             "application/x-tar")].
Proof.
  destruct (output_within_limit_is_uploaded (options (Some 1228800%N))
              (backend 0 prompt_body two_large_files) testHash
              (target ["lib/file1.js"; "dist/file2.js"]) 1228800%N 1228800%N)
    as [_ Hreq].
  - discriminate.
  - reflexivity.
  - discriminate.
  - reflexivity.
  - apply N.le_refl.
  - exact Hreq.
Defined.

Lemma estimate_witness :
  estimate (backend 0 prompt_body two_large_files) tempDir
    ["lib/file1.js"; "lib/**/*"; "dist/file2.js"] 0%N
  = ([], Resolved 1228800%N).
Proof.
  apply (estimate_is_the_literal_total (backend 0 prompt_body two_large_files)
           tempDir ["lib/file1.js"; "lib/**/*"; "dist/file2.js"]).
  reflexivity.
Defined.

Lemma stat_failure_witness :
  put (options (Some MB)) vanishing_files testHash (target ["lib/file1.js"])
  = ([Silly (PutFailed "ENOENT")], Resolved tt).
Proof.
  apply (stat_failure_skips_the_upload (options (Some MB)) vanishing_files testHash
           (target ["lib/file1.js"]) MB [] "lib/file1.js" [] (new_Error "ENOENT"));
    try reflexivity; discriminate.
Defined.

Lemma wrapper_witness :
  exists body,
    get_object (backend 500 prompt_body []) "test-bucket" testHash
    = Resolved {| Body := Some body |}
    /\ pipelineAsync body
         (new_TimeoutStream 0 fetch_timeout_ms (timeout_message testHash))
         (tar_extract (backend 500 prompt_body []) tempDir) = Resolved tt.
Proof.
  destruct (wrapper_stays_in_its_bucket_and_directory r2_config tempDir
              (backend 500 prompt_body []) testHash ["dist/**/*"])
    as (_ & Hhit & _).
  apply Hhit. reflexivity.
Defined.

End FurtherInstances.

Section OrchestratorFurtherInstances.

Import LRU RemoteFallbackCacheProvider Examples Further.

Lemma local_miss_witness :
  fst (fetch clock (tiers (Some (answering false)) (Some (answering false)) None)
         "k1" (target ["lib/**/*"]) (start 0%N)) = false
  /\ made (start 0%N)
          (snd (fetch clock (tiers (Some (answering false)) (Some (answering false)) None)
                  "k1" (target ["lib/**/*"]) (start 0%N)))
     = [Fetch Local "k1" (target ["lib/**/*"]);
        Fetch Remote "k1" (target ["lib/**/*"])].
Proof.
  apply (local_miss_defers_to_remote clock
           (tiers (Some (answering false)) (Some (answering false)) None)
           (answering false) "k1" (target ["lib/**/*"]) (start 0%N) 0%N);
    reflexivity.
Defined.

Lemma fetch_sequences_witness :
  made (start 0%N)
       (snd (fetch clock (tiers None (Some (answering true)) None)
               "k1" (target ["lib/**/*"]) (start 0%N))) = []
  \/ made (start 0%N)
          (snd (fetch clock (tiers None (Some (answering true)) None)
                  "k1" (target ["lib/**/*"]) (start 0%N)))
     = [Fetch Remote "k1" (target ["lib/**/*"])].
Proof.
  destruct (fetch_call_sequences clock (tiers None (Some (answering true)) None)
              "k1" (target ["lib/**/*"]) (start 0%N)) as (_ & Hnolocal & _).
  apply Hnolocal. reflexivity.
Defined.

Lemma put_sequences_witness :
  find "k1" (items (localHits
                      (snd (fetch clock
                              (tiers (Some (answering true)) None None)
                              "k1" (target ["lib/**/*"]) (start 0%N)))))
  = Some {| key := "k1"; value := true; LRU.start := 0%N |}.
Proof.
  destruct (put_call_sequences clock
              (tiers (Some (answering true)) (Some (answering true)) (Some true))
              "k1" (target ["lib/**/*"])
              (snd (fetch clock (tiers (Some (answering true)) None None)
                      "k1" (target ["lib/**/*"]) (start 0%N))))
    as (_ & Hlocal & _).
  apply Hlocal. reflexivity.
Defined.

Lemma put_after_local_hit_witness :
  filter is_local_put
    (made (snd (fetch clock (tiers (Some (answering true)) None None)
                  "k1" (target ["lib/**/*"]) (start 0%N)))
          (snd (put clock
                  (tiers (Some (answering true)) (Some (answering true)) (Some true))
                  "k1" (target ["lib/**/*"])
                  (snd (fetch clock (tiers (Some (answering true)) None None)
                          "k1" (target ["lib/**/*"]) (start 0%N)))))) = [].
Proof.
  apply (put_after_local_hit_skips_local clock
           (tiers (Some (answering true)) None None)
           (tiers (Some (answering true)) (Some (answering true)) (Some true))
           (answering true) "k1" (target ["lib/**/*"]) (target ["lib/**/*"])
           (start 0%N));
    reflexivity.
Defined.

Lemma put_after_remote_hit_witness :
  filter is_remote_put
    (made (snd (fetch clock
                  (tiers (Some (answering false)) (Some (answering true)) None)
                  "k1" (target ["lib/**/*"]) (start 0%N)))
          (snd (put clock
                  (tiers (Some (answering false)) (Some (answering true)) (Some true))
                  "k1" (target ["lib/**/*"])
                  (snd (fetch clock
                          (tiers (Some (answering false)) (Some (answering true)) None)
                          "k1" (target ["lib/**/*"]) (start 0%N)))))) = [].
Proof.
  apply (put_after_remote_hit_skips_remote clock
           (tiers (Some (answering false)) (Some (answering true)) None)
           (tiers (Some (answering false)) (Some (answering true)) (Some true))
           (answering true) "k1" (target ["lib/**/*"]) (target ["lib/**/*"])
           (start 0%N)
           (snd (lookup_local clock
                   (tiers (Some (answering false)) (Some (answering true)) None)
                   "k1" (target ["lib/**/*"]) (start 0%N)))
           (Some false) 0%N);
    try reflexivity.
  vm_compute. discriminate.
Defined.

Lemma expired_hit_witness :
  (exists rest,
      made (step clock (OpElapse an_hour_later)
              (snd (fetch clock (tiers (Some (answering true)) None None)
                      "k1" (target ["lib/**/*"]) (start 0%N))))
           (snd (put clock (tiers (Some (answering true)) None None)
                   "k1" (target ["lib/**/*"])
                   (step clock (OpElapse an_hour_later)
                      (snd (fetch clock (tiers (Some (answering true)) None None)
                              "k1" (target ["lib/**/*"]) (start 0%N))))))
      = Put Local "k1" (target ["lib/**/*"]) :: rest)
  /\ find "k1"
       (items (localHits
                 (snd (put clock (tiers (Some (answering true)) None None)
                         "k1" (target ["lib/**/*"])
                         (step clock (OpElapse an_hour_later)
                            (snd (fetch clock (tiers (Some (answering true)) None None)
                                    "k1" (target ["lib/**/*"]) (start 0%N))))))))
     = None.
Proof.
  apply (expired_hit_is_written_again clock
           (tiers (Some (answering true)) None None)
           (tiers (Some (answering true)) None None)
           (answering true) (answering true)
           "k1" (target ["lib/**/*"]) (target ["lib/**/*"]) (start 0%N) 0%N
           an_hour_later);
    reflexivity.
Defined.

Lemma shared_hit_witness :
  fst (fetch clock (tiers None (Some (answering false)) None)
         "k1" (target ["dist/**/*"])
         (snd (fetch clock (tiers (Some (answering true)) None None)
                 "k1" (target ["lib/**/*"]) (start 0%N)))) = true
  /\ made (snd (fetch clock (tiers (Some (answering true)) None None)
                  "k1" (target ["lib/**/*"]) (start 0%N)))
          (snd (fetch clock (tiers None (Some (answering false)) None)
                  "k1" (target ["dist/**/*"])
                  (snd (fetch clock (tiers (Some (answering true)) None None)
                          "k1" (target ["lib/**/*"]) (start 0%N))))) = [].
Proof.
  apply (hit_is_shared_across_instances clock
           (tiers (Some (answering true)) None None)
           (tiers None (Some (answering false)) None)
           (answering true) "k1" (target ["lib/**/*"]) (target ["dist/**/*"])
           (start 0%N));
    reflexivity.
Defined.

Lemma unrecorded_key_witness :
  made (start 0%N)
       (snd (put clock
               (tiers (Some (answering false)) (Some (answering false)) (Some true))
               "k1" (target ["lib/**/*"]) (start 0%N)))
  = [Put Local "k1" (target ["lib/**/*"]); Put Remote "k1" (target ["lib/**/*"])]
  /\ localHits (snd (put clock
                       (tiers (Some (answering false)) (Some (answering false)) (Some true))
                       "k1" (target ["lib/**/*"]) (start 0%N)))
     = localHits (start 0%N)
  /\ remoteHits (snd (put clock
                        (tiers (Some (answering false)) (Some (answering false)) (Some true))
                        "k1" (target ["lib/**/*"]) (start 0%N)))
     = remoteHits (start 0%N).
Proof.
  apply (unrecorded_key_is_written clock
           (tiers (Some (answering false)) (Some (answering false)) (Some true))
           "k1" (target ["lib/**/*"]) (start 0%N));
    reflexivity.
Defined.

Lemma fetch_records_witness :
  find "k1" (items (remoteHits
                      (snd (fetch clock
                              (tiers (Some (answering false)) (Some (answering true)) None)
                              "k1" (target ["lib/**/*"]) (start 0%N)))))
  = Some {| key := "k1"; value := true; LRU.start := 0%N |}.
Proof.
  destruct (fetch_records_the_answers clock
              (tiers (Some (answering false)) (Some (answering true)) None)
              (answering false) "k1" (target ["lib/**/*"]) (start 0%N) false 0%N
              eq_refl eq_refl)
    as (_ & _ & _ & Hremote).
  destruct (Hremote eq_refl (answering true) eq_refl) as [Hfind _].
  exact Hfind.
Defined.

End OrchestratorFurtherInstances.

(** ** Least recently used *)

Section RecencyFacts.

Import LRU Recency.

Lemma remove_keys (k : string) (l : list entry) :
  map key (remove k l) = List.remove string_dec k (map key l).
Proof.
  induction l as [| e l IH]; simpl; [reflexivity |].
  destruct (string_dec k (key e)) as [Heq | Hne].
  - apply String.eqb_eq in Heq. now rewrite Heq.
  - apply String.eqb_neq in Hne. rewrite Hne. simpl. now rewrite IH.
Qed.

Lemma find_none_keys (k : string) (l : list entry) :
  find k l = None -> ~ In k (map key l).
Proof.
  induction l as [| e l IH]; simpl; [tauto |].
  destruct (String.eqb k (key e)) eqn:E; [discriminate |].
  apply String.eqb_neq in E. intros H [Hk | Hk]; [congruence | now apply IH].
Qed.

Lemma remove_absent (k : string) (l : list entry) :
  find k l = None -> remove k l = l.
Proof.
  induction l as [| e l IH]; simpl; [reflexivity |].
  destruct (String.eqb k (key e)); [discriminate |].
  intros H. now rewrite IH.
Qed.

Lemma find_removelast (k : string) (l : list entry) :
  find k l = None -> find k (removelast l) = None.
Proof.
  induction l as [| e l IH]; [reflexivity |].
  destruct l as [| e' l']; [reflexivity |].
  change (removelast (e :: e' :: l')) with (e :: removelast (e' :: l')).
  cbn [find]. destruct (String.eqb k (key e)); [discriminate |]. exact IH.
Qed.

(** A write, on the keys: the key goes in front, the others keep their
    order, and what exceeds the capacity falls off the end. *)
Lemma keys_set (k : string) (v : bool) (t : N) (c : LRUCache) :
  0 < max c -> size c <= max c ->
  keys (set k v t c) = firstn (max c) (k :: List.remove string_dec k (keys c)).
Proof.
  unfold keys, size, set. intros Hpos Hle.
  destruct (find k (items c)) as [e |] eqn:Hfind.
  - simpl map. rewrite remove_keys.
    rewrite firstn_all2; [reflexivity |].
    simpl. rewrite <- remove_keys, length_map.
    apply remove_found_length in Hfind. lia.
  - rewrite (notin_remove string_dec _ _ (find_none_keys k _ Hfind)).
    destruct (max c) as [| n] eqn:Hmax; [lia |].
    destruct (S n <=? length (items c)) eqn:Hfull; simpl map; cbn [firstn].
    + apply Nat.leb_le in Hfull.
      rewrite removelast_keys, removelast_firstn_len, length_map.
      f_equal. f_equal. lia.
    + apply Nat.leb_gt in Hfull.
      rewrite firstn_all2; [reflexivity | rewrite length_map; lia].
Qed.

(** Reading a key right after writing it leaves the order as the write
    made it. *)
Lemma keys_get_set (k : string) (v : bool) (t : N) (c : LRUCache) :
  keys (snd (get k t (set k v t c))) = keys (set k v t c).
Proof.
  assert (H : exists rest,
             items (set k v t c) = {| key := k; value := v; start := t |} :: rest
             /\ find k rest = None).
  { unfold set. destruct (find k (items c)) eqn:Hfind.
    - eexists. split; [reflexivity | apply find_remove_same].
    - destruct (max c <=? length (items c)); eexists; split;
        try reflexivity; [now apply find_removelast | exact Hfind]. }
  destruct H as (rest & Hitems & Hrest).
  unfold keys, get. rewrite Hitems. cbn [find key]. rewrite String.eqb_refl.
  rewrite fresh_is_live. cbn [snd items with_items remove key].
  rewrite String.eqb_refl. now rewrite (remove_absent k rest Hrest).
Qed.

Lemma nodup_snoc (k : string) (ks : list string) :
  nodup string_dec (ks ++ [k]) = List.remove string_dec k (nodup string_dec ks) ++ [k].
Proof.
  induction ks as [| x ks IH]; [reflexivity |].
  cbn [app nodup].
  destruct (string_dec x k) as [-> | Hne].
  - destruct (in_dec string_dec k (ks ++ [k])) as [_ | Hnin].
    + rewrite IH. destruct (in_dec string_dec k ks); [reflexivity |].
      now rewrite remove_cons.
    + exfalso. apply Hnin. apply in_or_app. right. now left.
  - destruct (in_dec string_dec x (ks ++ [k])) as [Hin | Hnin],
             (in_dec string_dec x ks) as [Hin' | Hnin'].
    + exact IH.
    + exfalso. apply in_app_or in Hin. destruct Hin as [Hin | [Hin | []]];
        [now apply Hnin' | congruence].
    + exfalso. apply Hnin. apply in_or_app. now left.
    + rewrite IH. cbn [List.remove].
      destruct (string_dec k x); [congruence | reflexivity].
Qed.

Lemma remove_rev (k : string) (l : list string) :
  List.remove string_dec k (rev l) = rev (List.remove string_dec k l).
Proof.
  induction l as [| x l IH]; [reflexivity |].
  cbn [rev List.remove]. rewrite remove_app, IH. cbn [List.remove].
  destruct (string_dec k x); cbn [rev]; [now rewrite app_nil_r | reflexivity].
Qed.

(** Removing a key from the first [n + 1] entries of a list without
    duplicates, or from the whole list, leaves the same first [n]. *)
Lemma firstn_remove (k : string) (l : list string) :
  NoDup l ->
  forall n,
    firstn n (List.remove string_dec k (firstn (S n) l))
    = firstn n (List.remove string_dec k l).
Proof.
  induction 1 as [| x l Hx Hnd IH]; intros n; [reflexivity |].
  cbn [firstn List.remove].
  destruct (string_dec k x) as [<- | Hne].
  - rewrite (notin_remove string_dec l k Hx).
    rewrite notin_remove.
    + rewrite firstn_firstn. f_equal. lia.
    + intros Hin. apply Hx. revert Hin. clear. revert n.
      induction l as [| y l IH]; intros [| n]; simpl; try tauto.
      intros [H | H]; [now left | right; eauto].
  - destruct n as [| n]; [reflexivity |].
    cbn [firstn]. now rewrite IH.
Qed.

(** Touching a key in a table that holds the most recently touched keys
    gives the table of the most recently touched keys, the new touch
    included. *)
Lemma touch_most_recent (capacity : nat) (k : string) (touched : list string) :
  0 < capacity ->
  firstn capacity
    (k :: List.remove string_dec k (most_recently_touched capacity touched))
  = most_recently_touched capacity (touched ++ [k]).
Proof.
  intros Hpos. destruct capacity as [| n]; [lia |].
  unfold most_recently_touched, by_last_touch.
  rewrite nodup_snoc, rev_app_distr. cbn [rev app firstn].
  rewrite <- remove_rev. f_equal.
  apply firstn_remove. apply NoDup_rev, NoDup_nodup.
Qed.

End RecencyFacts.

Section RecencyOfFetches.

Import LRU RemoteFallbackCacheProvider Recency.

Context {W : Type}.
Variable now : W -> N.

(** A [fetch] through a local provider writes the key into the local hit
    table and reads it back, and does nothing else to that table. *)
Lemma fetch_touches_local
    (opts : RemoteFallbackCacheProviderOptions) (lp : CacheProvider)
    (k : string) (target : Target) (s : @State W) :
  localCacheProvider opts = Some lp ->
  localHits (snd (fetch now opts k target s))
  = snd (get k (now (snd (cp_fetch lp k target (world s))))
           (set k (fst (cp_fetch lp k target (world s)))
              (now (snd (cp_fetch lp k target (world s)))) (localHits s))).
Proof.
  intros Hlp.
  assert (Hlook : exists v,
    lookup_local now opts k target s =
    (v, {| localHits :=
             snd (get k (now (snd (cp_fetch lp k target (world s))))
                    (set k (fst (cp_fetch lp k target (world s)))
                       (now (snd (cp_fetch lp k target (world s)))) (localHits s)));
           remoteHits := remoteHits s;
           world := snd (cp_fetch lp k target (world s));
           calls := calls s ++ [Fetch Local k target] |})).
  { unfold lookup_local, mbind, call_fetch, localHits_set, localHits_get.
    rewrite Hlp. destruct (cp_fetch lp k target (world s)) as [b w1].
    cbn [fst snd world localHits remoteHits calls].
    destruct (get k (now w1) (set k b (now w1) (localHits s))) as [v L].
    now exists v. }
  destruct Hlook as [v Hlook].
  rewrite (fetch_after_lookup now opts k target s _ _ Hlook).
  destruct (or_false v), (remoteCacheProvider opts); reflexivity.
Qed.

(** A [fetch] through a remote provider alone, with an empty local hit
    table, writes the key into the remote hit table and leaves the local one
    empty. *)
Lemma fetch_touches_remote
    (opts : RemoteFallbackCacheProviderOptions) (rp : CacheProvider)
    (k : string) (target : Target) (s : @State W) :
  localCacheProvider opts = None ->
  remoteCacheProvider opts = Some rp ->
  items (localHits s) = [] ->
  remoteHits (snd (fetch now opts k target s))
  = set k (fst (cp_fetch rp k target (world s)))
      (now (snd (cp_fetch rp k target (world s)))) (remoteHits s)
  /\ items (localHits (snd (fetch now opts k target s))) = [].
Proof.
  intros Hlp Hrp Hempty.
  rewrite (fetch_after_lookup now opts k target s _ _
             (lookup_local_not_asked now opts k target s Hlp)).
  assert (Hget : get k (now (world s)) (localHits s) = (None, localHits s)).
  { apply get_absent. now rewrite Hempty. }
  rewrite Hget, Hrp. cbn [fst snd or_false world localHits remoteHits].
  split; [reflexivity | exact Hempty].
Qed.

Variable capacity : nat.
Hypothesis capacity_pos : 0 < capacity.

(** Fetches through local providers keep the local hit table equal to the
    table of the most recently touched keys. *)
Lemma run_records_locally (ops : list op) :
  forall (s : @State W) (touched : list string),
    bounded capacity s ->
    keys (localHits s) = most_recently_touched capacity touched ->
    forallb records_locally ops = true ->
    keys (localHits (run now ops s))
    = most_recently_touched capacity (touched ++ map op_key ops).
Proof.
  induction ops as [| o ops IH]; intros s touched Hb Hkeys Hall.
  - simpl. now rewrite app_nil_r.
  - cbn [forallb] in Hall. apply andb_true_iff in Hall. destruct Hall as [Ho Hall].
    change (run now (o :: ops) s) with (run now ops (step now o s)).
    cbn [map]. replace (touched ++ op_key o :: map op_key ops)
      with ((touched ++ [op_key o]) ++ map op_key ops)
      by now rewrite <- app_assoc.
    apply IH; [now apply step_bounded | | exact Hall].
    destruct o as [opts k target | | | |]; try discriminate.
    cbn [records_locally] in Ho.
    destruct (localCacheProvider opts) as [lp |] eqn:Hlp; [| discriminate].
    cbn [step op_key].
    rewrite (fetch_touches_local opts lp k target s Hlp), keys_get_set.
    destruct Hb as (Hmax & _ & Hsize & _).
    rewrite keys_set by (rewrite Hmax; auto).
    rewrite Hmax, Hkeys. now apply touch_most_recent.
Qed.

(** Fetches through remote providers alone do the same to the remote hit
    table. *)
Lemma run_records_remotely (ops : list op) :
  forall (s : @State W) (touched : list string),
    bounded capacity s ->
    items (localHits s) = [] ->
    keys (remoteHits s) = most_recently_touched capacity touched ->
    forallb records_remotely ops = true ->
    keys (remoteHits (run now ops s))
    = most_recently_touched capacity (touched ++ map op_key ops).
Proof.
  induction ops as [| o ops IH]; intros s touched Hb Hempty Hkeys Hall.
  - simpl. now rewrite app_nil_r.
  - cbn [forallb] in Hall. apply andb_true_iff in Hall. destruct Hall as [Ho Hall].
    change (run now (o :: ops) s) with (run now ops (step now o s)).
    cbn [map]. replace (touched ++ op_key o :: map op_key ops)
      with ((touched ++ [op_key o]) ++ map op_key ops)
      by now rewrite <- app_assoc.
    destruct o as [opts k target | | | |]; try discriminate.
    cbn [records_remotely] in Ho.
    destruct (localCacheProvider opts) as [lp |] eqn:Hlp; [discriminate |].
    destruct (remoteCacheProvider opts) as [rp |] eqn:Hrp; [| discriminate].
    destruct (fetch_touches_remote opts rp k target s Hlp Hrp Hempty)
      as [Hremote Hlocal].
    apply IH; [now apply step_bounded | exact Hlocal | | exact Hall].
    cbn [step op_key]. rewrite Hremote.
    destruct Hb as (_ & Hmax & _ & Hsize).
    rewrite keys_set by (rewrite Hmax; auto).
    rewrite Hmax, Hkeys. now apply touch_most_recent.
Qed.

End RecencyOfFetches.

Section CapacityClaim.

Import LRU RemoteFallbackCacheProvider Examples Recency.



End CapacityClaim.

(** ** The empty key *)

Section EmptyKeyClaim.

Import LRU RemoteFallbackCacheProvider Examples.


End EmptyKeyClaim.
